(** * Procedural planetary system: scene graph, per-frame update, orbit loci

    A shallow embedding of [src/planet/planetarysystem.cpp].

    - C++ [float] arithmetic is an interface ([FloatOps]): the structural
      results (tree shape, traversal orders, ownership) hold for every
      interpretation of it.  Results that need arithmetic laws are stated for
      the exact interpretation [exact_arith], where a [float] is a real
      number; rounding, infinities and NaN are outside that interpretation.
      They are inside the interpretation [binary32_arith], IEEE 754 binary32
      with rounding to nearest even, which is used where rounding decides
      the result.
    - The C++ heap is a pair of typed arenas: a pointer is the index of its
      allocation, [new] appends a block (it never fails and never reuses an
      address), [delete] marks one block released.  Dereferencing a null or
      released pointer, indexing a vector out of range and releasing a block
      twice are undefined behaviour ([Undefined]).
    - The random source is the sequence [dist] of the values the uniform
      distribution yields, consumed in order.
    - Recursion over pointers is bounded by fuel; the entry points supply the
      number of blocks of the arena, which is enough for every tree.
    - The class [Planet] is declared and defined outside the source file:
      its members, constructor, accessors and setters are modelled from the
      spec, its matrix getters are parameters, and its per-frame update
      [updateCTM], with the transforms it derives, is modelled from the
      spec. *)

From Stdlib Require Import Reals QArith Lra Lia String SpecFloat.
From stdpp Require Import base list sets.

Set Default Proof Using "Type".

(* ================================================================= *)
(** ** Float arithmetic *)

(** The operations of C++ [float] and of [<cmath>] that the source uses. *)
Class FloatOps (float : Type) := {
  flit : Q -> float;                       (* a numeric literal *)
  fadd : float -> float -> float;
  fsub : float -> float -> float;
  fmul : float -> float -> float;
  fdiv : float -> float -> float;
  fsqrt : float -> float;
  flog10 : float -> float;
  fsin : float -> float;
  fcos : float -> float;
  feqb : float -> float -> bool            (* operator== *)
}.

Arguments flit {float _} q%_Q.

Declare Scope float_scope.
Delimit Scope float_scope with fl.
Infix "+" := fadd : float_scope.
Infix "-" := fsub : float_scope.
Infix "*" := fmul : float_scope.
Infix "/" := fdiv : float_scope.
Infix "==" := feqb (at level 70, no associativity) : float_scope.
Notation "# q" := (flit q) (at level 5, q at level 1, format "# q") : float_scope.

(** The exact interpretation: real numbers. *)
Definition log10R (x : R) : R := (ln x / ln 10)%R.

Definition ReqbR (x y : R) : bool := if Req_dec_T x y then true else false.

#[export] Instance exact_arith : FloatOps R := {|
  flit := Q2R;
  fadd := Rplus;
  fsub := Rminus;
  fmul := Rmult;
  fdiv := Rdiv;
  fsqrt := sqrt;
  flog10 := log10R;
  fsin := sin;
  fcos := cos;
  feqb := ReqbR
|}.

(** The binary32 interpretation: IEEE 754 single precision (24 bits of
    precision, exponent of the infinities 128), every operation rounded to
    nearest, ties to even, as [SpecFloat] specifies it.  A literal is the
    binary32 number nearest to the rational it denotes: the quotient of the
    numerator by the denominator, both taken exactly, rounded once.
    IEEE 754 does not fix the results of [log10], [sin] and [cos]: they are
    parameters of the interpretation. *)
Definition binary32_of_Z (n : Z) : spec_float :=
  match n with
  | Z0 => S754_zero false
  | Zpos m => S754_finite false m 0
  | Zneg m => S754_finite true m 0
  end.

Definition binary32_lit (q : Q) : spec_float :=
  SFdiv 24 128 (binary32_of_Z (Qnum q)) (S754_finite false (Qden q) 0).

Definition binary32_arith (log10f sinf cosf : spec_float -> spec_float)
    : FloatOps spec_float := {|
  flit := binary32_lit;
  fadd := SFadd 24 128;
  fsub := SFsub 24 128;
  fmul := SFmul 24 128;
  fdiv := SFdiv 24 128;
  fsqrt := SFsqrt 24 128;
  flog10 := log10f;
  fsin := sinf;
  fcos := cosf;
  feqb := SFeqb
|}.

(* ================================================================= *)
(** ** The part of GLM the source calls

    GLM is an external library; its operations are written as GLM 0.9.9
    computes them, over the float interface. *)

Module glm.
Section Glm.
Context {float : Type} {ops : FloatOps float}.
Local Open Scope float_scope.

Record vec3 := Vec3 { x3 : float; y3 : float; z3 : float }.
Record vec4 := Vec4 { x4 : float; y4 : float; z4 : float; w4 : float }.
(** Column-major, as in GLM: [col0 m] is [m[0]]. *)
Record mat4 := Mat4 { col0 : vec4; col1 : vec4; col2 : vec4; col3 : vec4 }.

(** [glm::vec3(s)] *)
Definition vec3_splat (s : float) : vec3 := Vec3 s s s.

(** [glm::vec4(v, w)] *)
Definition vec4_of (v : vec3) (w : float) : vec4 := Vec4 (x3 v) (y3 v) (z3 v) w.

(** The conversion of a [vec4] to a [vec3] keeps x, y and z. *)
Definition vec3_of (v : vec4) : vec3 := Vec3 (x4 v) (y4 v) (z4 v).

(** [glm::mat4(1)] *)
Definition mat4_1 : mat4 :=
  Mat4 (Vec4 #1 #0 #0 #0) (Vec4 #0 #1 #0 #0) (Vec4 #0 #0 #1 #0) (Vec4 #0 #0 #0 #1).

Definition vec4_add (a b : vec4) : vec4 :=
  Vec4 (x4 a + x4 b) (y4 a + y4 b) (z4 a + z4 b) (w4 a + w4 b).

(** [v * s] *)
Definition vec4_scale (v : vec4) (s : float) : vec4 :=
  Vec4 (x4 v * s) (y4 v * s) (z4 v * s) (w4 v * s).

(** [s * v] on [vec3] *)
Definition vec3_lscale (s : float) (v : vec3) : vec3 :=
  Vec3 (s * x3 v) (s * y3 v) (s * z3 v).

(** [v * s] on [vec3] *)
Definition vec3_scale (v : vec3) (s : float) : vec3 :=
  Vec3 (x3 v * s) (y3 v * s) (z3 v * s).

Definition dot3 (a b : vec3) : float :=
  x3 a * x3 b + y3 a * y3 b + z3 a * z3 b.

Definition inversesqrt (x : float) : float := #1 / fsqrt x.

Definition normalize (v : vec3) : vec3 := vec3_scale v (inversesqrt (dot3 v v)).

(** [glm::radians(degrees)] *)
Definition radians (degrees : float) : float :=
  degrees * #0.01745329251994329576923690768489.

(** [m * v] *)
Definition mat4_mul_vec4 (m : mat4) (v : vec4) : vec4 :=
  vec4_add
    (vec4_add (vec4_scale (col0 m) (x4 v)) (vec4_scale (col1 m) (y4 v)))
    (vec4_add (vec4_scale (col2 m) (z4 v)) (vec4_scale (col3 m) (w4 v))).

Definition mat4_mul_col (a : mat4) (b : vec4) : vec4 :=
  vec4_add
    (vec4_add
       (vec4_add (vec4_scale (col0 a) (x4 b)) (vec4_scale (col1 a) (y4 b)))
       (vec4_scale (col2 a) (z4 b)))
    (vec4_scale (col3 a) (w4 b)).

(** [a * b] *)
Definition mat4_mul (a b : mat4) : mat4 :=
  Mat4 (mat4_mul_col a (col0 b)) (mat4_mul_col a (col1 b))
       (mat4_mul_col a (col2 b)) (mat4_mul_col a (col3 b)).

(** [glm::scale(m, v)] and, from [glm/gtx/transform.hpp], [glm::scale(v)]. *)
Definition scale_mat (m : mat4) (v : vec3) : mat4 :=
  Mat4 (vec4_scale (col0 m) (x3 v)) (vec4_scale (col1 m) (y3 v))
       (vec4_scale (col2 m) (z3 v)) (col3 m).

Definition scale (v : vec3) : mat4 := scale_mat mat4_1 v.

(** [glm::rotate(m, angle, v)]: the axis-angle rotation matrix, applied to
    the first three columns of [m]. *)
Definition rotate (m : mat4) (angle : float) (v : vec3) : mat4 :=
  let a := angle in
  let c := fcos a in
  let s := fsin a in
  let axis := normalize v in
  let temp := vec3_lscale (#1 - c) axis in
  let r00 := c + x3 temp * x3 axis in
  let r01 := x3 temp * y3 axis + s * z3 axis in
  let r02 := x3 temp * z3 axis - s * y3 axis in
  let r10 := y3 temp * x3 axis - s * z3 axis in
  let r11 := c + y3 temp * y3 axis in
  let r12 := y3 temp * z3 axis + s * x3 axis in
  let r20 := z3 temp * x3 axis + s * y3 axis in
  let r21 := z3 temp * y3 axis - s * x3 axis in
  let r22 := c + z3 temp * z3 axis in
  let lin (p q r : float) :=
    vec4_add (vec4_add (vec4_scale (col0 m) p) (vec4_scale (col1 m) q))
             (vec4_scale (col2 m) r) in
  Mat4 (lin r00 r01 r02) (lin r10 r11 r12) (lin r20 r21 r22) (col3 m).

End Glm.
Arguments vec3 float : clear implicits.
Arguments vec4 float : clear implicits.
Arguments mat4 float : clear implicits.
End glm.

Import glm.

(** A pointer is the index of its allocation in the arena of its type; a
    nullable pointer is an [option addr], [None] being [nullptr]. *)
Abbreviation addr := nat.

(** What running a piece of the program gives. *)
Inductive outcome (A : Type) :=
  | Ok (a : A)
  | Undefined          (* undefined behaviour *)
  | OutOfFuel.
Arguments Ok {A} a.
Arguments Undefined {A}.
Arguments OutOfFuel {A}.

(* ================================================================= *)
(** ** The catalog *)

Section Model.
Context {float : Type} {ops : FloatOps float}.
Local Open Scope float_scope.

Record SolarSystemPlanet := {
  texture_fname : string;
  diameter : float;               (* km *)
  rotational_velocity : float;    (* km/h *)
  orbital_radius : float;         (* 10^6 km *)
  orbital_period : float;         (* days *)
  orbital_inclination : float     (* degrees *)
}.

(** The three globals of the source: [Sun], [Moon] and [Planets]. *)
Record Catalog := {
  Sun : SolarSystemPlanet;
  Moon : SolarSystemPlanet;
  Planets : list SolarSystemPlanet
}.

Definition solar_system : Catalog := {|
  Sun := {| texture_fname := "resources/images/sun.jpeg";
            diameter := #1392684; rotational_velocity := #0;
            orbital_radius := #0; orbital_period := #0;
            orbital_inclination := #0 |};
  Moon := {| texture_fname := "resources/images/moon.jpeg";
             diameter := #3475; rotational_velocity := #16.7;
             orbital_radius := #0.384; orbital_period := #27.3;
             orbital_inclination := #5.1 |};
  Planets := [
    (* Mercury *)
    {| texture_fname := "resources/images/mercury.jpeg";
       diameter := #4879; rotational_velocity := #10.83;
       orbital_radius := #57.9; orbital_period := #88;
       orbital_inclination := #7.0 |};
    (* Venus *)
    {| texture_fname := "resources/images/venus.jpeg";
       diameter := #12104; rotational_velocity := #6.52;
       orbital_radius := #108.2; orbital_period := #224.7;
       orbital_inclination := #3.4 |};
    (* Earth *)
    {| texture_fname := "resources/images/earth.jpeg";
       diameter := #12756; rotational_velocity := #1574;
       orbital_radius := #149.6; orbital_period := #365.2;
       orbital_inclination := #0 |};
    (* Mars *)
    {| texture_fname := "resources/images/mars.jpeg";
       diameter := #6792; rotational_velocity := #866;
       orbital_radius := #228; orbital_period := #687;
       orbital_inclination := #1.8 |};
    (* Jupiter *)
    {| texture_fname := "resources/images/jupiter.jpeg";
       diameter := #142984; rotational_velocity := #45583;
       orbital_radius := #778.5; orbital_period := #4331;
       orbital_inclination := #1.3 |};
    (* Saturn *)
    {| texture_fname := "resources/images/saturn.jpeg";
       diameter := #120536; rotational_velocity := #36840;
       orbital_radius := #1432; orbital_period := #10747;
       orbital_inclination := #2.5 |};
    (* Uranus *)
    {| texture_fname := "resources/images/uranus.jpeg";
       diameter := #51118; rotational_velocity := #14798;
       orbital_radius := #2867; orbital_period := #30589;
       orbital_inclination := #0.8 |};
    (* Neptune *)
    {| texture_fname := "resources/images/neptune.jpeg";
       diameter := #49528; rotational_velocity := #9719;
       orbital_radius := #4515; orbital_period := #59800;
       orbital_inclination := #1.8 |}
  ]
|}.

(** The shipped catalog with the diameter of the first orbiting body set to
    zero: a malformed record. *)
Definition zero_diameter_catalog : Catalog :=
  {| Sun := Sun solar_system;
     Moon := Moon solar_system;
     Planets :=
       {| texture_fname := "resources/images/mercury.jpeg";
          diameter := #0; rotational_velocity := #10.83;
          orbital_radius := #57.9; orbital_period := #88;
          orbital_inclination := #7.0 |}
       :: tl (Planets solar_system) |}.

(* ================================================================= *)
(** ** Scaling functions and the rotation axis *)

Definition scaleDiameter (diameter : float) : float :=
  (flog10 diameter - #3) * #0.5.

Definition scaleOrbitalRadius (radius : float) : float :=
  (flog10 radius - #1.2) * #7.

Definition scaleVelocity (v : float) : float :=
  fsqrt v * #10.

(** Get rotational axis based on inclination degree *)
Definition computeAxis (inclination : float) : vec3 float :=
  let DEFAULT_AXIS := Vec3 #0 #1 #0 in
  if inclination == #0 then DEFAULT_AXIS
  else
    let rotation_mat := rotate mat4_1 (radians inclination) (Vec3 #1 #0 #0) in
    vec3_of (mat4_mul_vec4 rotation_mat (vec4_of DEFAULT_AXIS #0)).

(* ================================================================= *)
(** ** Scene data *)

(** The render payload.  Of [SceneMaterial] only the members the source
    assigns are kept. *)
Inductive PrimitiveType :=
  | PRIMITIVE_CUBE | PRIMITIVE_CONE | PRIMITIVE_CYLINDER
  | PRIMITIVE_SPHERE | PRIMITIVE_MESH.

Record SceneFileMap := {
  isUsed : bool;
  filename : string;
  repeatU : float;
  repeatV : float
}.

Record SceneMaterial := {
  cDiffuse : vec4 float;
  blend : float;
  textureMap : SceneFileMap
}.

Record ScenePrimitive := {
  type : PrimitiveType;
  material : SceneMaterial
}.

Record RenderShapeData := {
  primitive : ScenePrimitive;
  ctm : mat4 float
}.

Definition set_filename (mat : SceneMaterial) (f : string) : SceneMaterial :=
  {| cDiffuse := cDiffuse mat; blend := blend mat;
     textureMap := {| isUsed := isUsed (textureMap mat); filename := f;
                      repeatU := repeatU (textureMap mat);
                      repeatV := repeatV (textureMap mat) |} |}.

Definition set_blend (mat : SceneMaterial) (b : float) : SceneMaterial :=
  {| cDiffuse := cDiffuse mat; blend := b; textureMap := textureMap mat |}.

(** Modelled from the spec: the class [Planet] ([planet/planet.h]) is not
    among the sources.  Its members are those of the spec's SceneGraphNode,
    in the order the constructor calls of the source give them: scale,
    orbital rate, self-spin rate, phase, orbit radius, axis, render handle.
    The spin angle is the implicit member of the spec's per-frame update;
    the parent is a weak back-reference, the children are owned. *)
Record Planet := {
  scale_ : float;
  orbitalRate : float;
  selfSpinRate : float;
  phase : float;
  orbitRadius : float;
  axis : vec3 float;
  renderHandle : addr;
  spinAngle : float;
  parent : option addr;
  children : list addr
}.

(** Modelled from the spec: the constructor of [Planet]; a new node has no
    parent and no children, and its spin angle starts at 0 (the spec leaves
    the starting angle open). *)
Definition Planet_new (scale orbitalRate selfSpinRate phase orbitRadius : float)
    (axis : vec3 float) (shape : addr) : Planet :=
  {| scale_ := scale; orbitalRate := orbitalRate; selfSpinRate := selfSpinRate;
     phase := phase; orbitRadius := orbitRadius; axis := axis;
     renderHandle := shape; spinAngle := #0;
     parent := None; children := [] |}.

(** Modelled from the spec: the accessors of [Planet]. *)
Definition getChildren (p : Planet) : list addr := children p.
Definition getParent (p : Planet) : option addr := parent p.
Definition getOrbitRadius (p : Planet) : float := orbitRadius p.

Definition with_parent (p : Planet) (q : option addr) : Planet :=
  {| scale_ := scale_ p; orbitalRate := orbitalRate p;
     selfSpinRate := selfSpinRate p; phase := phase p;
     orbitRadius := orbitRadius p; axis := axis p;
     renderHandle := renderHandle p; spinAngle := spinAngle p;
     parent := q; children := children p |}.

Definition with_children (p : Planet) (cs : list addr) : Planet :=
  {| scale_ := scale_ p; orbitalRate := orbitalRate p;
     selfSpinRate := selfSpinRate p; phase := phase p;
     orbitRadius := orbitRadius p; axis := axis p;
     renderHandle := renderHandle p; spinAngle := spinAngle p;
     parent := parent p; children := cs |}.

(** Modelled from the spec: what one step of the per-frame update does to a
    node: [phase += orbitalRate * deltaTime], and the spin angle likewise
    with [selfSpinRate]. *)
Definition advance_node (deltaTime : float) (p : Planet) : Planet :=
  {| scale_ := scale_ p; orbitalRate := orbitalRate p;
     selfSpinRate := selfSpinRate p;
     phase := phase p + orbitalRate p * deltaTime;
     orbitRadius := orbitRadius p; axis := axis p;
     renderHandle := renderHandle p;
     spinAngle := spinAngle p + selfSpinRate p * deltaTime;
     parent := parent p; children := children p |}.

(* ================================================================= *)
(** ** Memory and effects *)

(** The heap and the one [PlanetarySystem] object.  [released] logs the
    [delete] calls in the order they happen. *)
Record state := {
  planets : list (option Planet);     (* None: a released block *)
  shapes : list RenderShapeData;
  released : list addr;
  m_root : option addr
}.

Definition M (A : Type) : Type := state -> outcome (A * state).

Definition ret {A} (a : A) : M A := fun s => Ok (a, s).

Definition bind {A B} (m : M A) (k : A -> M B) : M B :=
  fun s => match m s with
           | Ok (a, s') => k a s'
           | Undefined => Undefined
           | OutOfFuel => OutOfFuel
           end.

Definition undefined {A} : M A := fun _ => Undefined.
Definition out_of_fuel {A} : M A := fun _ => OutOfFuel.

End Model.

Declare Scope M_scope.
Delimit Scope M_scope with M.
Bind Scope M_scope with M.
Notation "x ← y ; z" := (bind y (fun x => z))
  (at level 20, y at level 100, z at level 200, only parsing) : M_scope.
Notation "y ;; z" := (bind y (fun _ => z))
  (at level 100, z at level 200, only parsing, right associativity) : M_scope.

Section Operations.
Context {float : Type} {ops : FloatOps float}.
Local Open Scope float_scope.
Local Open Scope M_scope.

Abbreviation Planet := (@Planet float).
Abbreviation state := (@state float).
Abbreviation M := (@M float).

Definition with_planets (s : state) (h : list (option Planet)) : state :=
  {| planets := h; shapes := shapes s; released := released s;
     m_root := m_root s |}.

(** [new RenderShapeData {...}] *)
Definition new_RenderShapeData (d : RenderShapeData) : M addr :=
  fun s => Ok (length (shapes s),
               {| planets := planets s; shapes := shapes s ++ [d];
                  released := released s; m_root := m_root s |}).

(** [new Planet(...)] *)
Definition new_Planet (p : Planet) : M addr :=
  fun s => Ok (length (planets s), with_planets s (planets s ++ [Some p])).

(** Reading through a pointer: the block must be live. *)
Definition load (a : addr) : M Planet :=
  fun s => match planets s !! a with
           | Some (Some p) => Ok (p, s)
           | _ => Undefined
           end.

(** Writing through a pointer. *)
Definition store (a : addr) (p : Planet) : M unit :=
  fun s => match planets s !! a with
           | Some (Some _) => Ok (tt, with_planets s (<[a := Some p]> (planets s)))
           | _ => Undefined
           end.

(** [delete curr] *)
Definition delete (a : addr) : M unit :=
  fun s => match planets s !! a with
           | Some (Some _) =>
               Ok (tt, {| planets := <[a := None]> (planets s);
                          shapes := shapes s;
                          released := released s ++ [a];
                          m_root := m_root s |})
           | _ => Undefined
           end.

(** Modelled from the spec: the two setters of [Planet]; [setChildren]
    replaces the whole list. *)
Definition setParent (a : addr) (q : option addr) : M unit :=
  p ← load a; store a (with_parent p q).

Definition setChildren (a : addr) (cs : list addr) : M unit :=
  p ← load a; store a (with_children p cs).

Definition set_m_root (r : option addr) : M unit :=
  fun s => Ok (tt, {| planets := planets s; shapes := shapes s;
                      released := released s; m_root := r |}).

(** A range-based [for] over a vector, threading the variables the body
    updates. *)
Fixpoint for_each {A B : Type} (l : list A) (body : B -> A -> M B) (b : B) : M B :=
  match l with
  | [] => ret b
  | x :: l' => b' ← body b x; for_each l' body b'
  end.

(* ----------------------------------------------------------------- *)
(** *** Teardown

    The loop of [deletePlanet] runs over the children the node has when the
    loop starts; nothing in the loop changes that vector.  [delete curr]
    releases the block of [curr] and nothing else: the destructor of
    [Planet] is taken to be trivial, as the spec's teardown has it. *)

Fixpoint deletePlanet (fuel : nat) (curr : addr) : M unit :=
  match fuel with
  | O => out_of_fuel
  | S fuel' =>
      c ← load curr;
      for_each (getChildren c) (fun _ p => deletePlanet fuel' p) tt;;
      delete curr
  end.

(** [PlanetarySystem::~PlanetarySystem] *)
Definition PlanetarySystem_destructor : M unit :=
  fun s => match m_root s with
           | Some root => deletePlanet (length (planets s)) root s
           | None => ret tt s
           end.

(* ----------------------------------------------------------------- *)
(** *** Construction *)

Definition sphere (mat : SceneMaterial) : RenderShapeData :=
  {| primitive := {| type := PRIMITIVE_SPHERE; material := mat |};
     ctm := mat4_1 |}.

(** The local variables the planet loop updates; [mt] counts the draws made
    from the random source. *)
Record locals := {
  l_mat : @SceneMaterial float;
  l_sun_children : list addr;
  l_data : list addr;
  l_mt : nat
}.

(** The loop [for (auto &planet : Planets)]; [dist] is the sequence of
    values the uniform distribution yields. *)
Fixpoint add_planets (dist : nat -> float) (sun : addr)
    (Planets : list SolarSystemPlanet) (l : locals) : M locals :=
  match Planets with
  | [] => ret l
  | planet :: rest =>
      let mat := set_filename (l_mat l) (texture_fname planet) in
      p_shape ← new_RenderShapeData (sphere mat);
      p ← new_Planet (Planet_new (scaleDiameter (diameter planet))
                                 (scaleVelocity (#1 / orbital_period planet))
                                 (rotational_velocity planet / diameter planet)
                                 (dist (l_mt l))
                                 (scaleOrbitalRadius (orbital_radius planet))
                                 (computeAxis (orbital_inclination planet))
                                 p_shape);
      let sun_children := l_sun_children l ++ [p] in
      let data := l_data l ++ [p_shape] in
      setParent p (Some sun);;
      add_planets dist sun rest
        {| l_mat := mat; l_sun_children := sun_children; l_data := data;
           l_mt := S (l_mt l) |}
  end.

Definition generateSolarSystem (cat : Catalog) (dist : nat -> float)
    : M (list addr) :=
  let data := [] in
  let mat := {| cDiffuse := Vec4 #1 #1 #1 #0; blend := #1;
                textureMap := {| isUsed := true; filename := "";
                                 repeatU := #1; repeatV := #1 |} |} in
  (* Add sun *)
  let mat := set_filename mat (texture_fname (Sun cat)) in
  sun_shape ← new_RenderShapeData (sphere mat);
  sun ← new_Planet (Planet_new (scaleDiameter (diameter (Sun cat)))
                               #0 #0 #0 #0 (Vec3 #0 #1 #0) sun_shape);
  let sun_children := [] in
  let data := data ++ [sun_shape] in
  (* Change parameters for other planets *)
  let mat := set_blend mat #0.5 in
  (* Add planets *)
  l ← add_planets dist sun (Planets cat)
        {| l_mat := mat; l_sun_children := sun_children; l_data := data;
           l_mt := 0 |};
  let sun_children := l_sun_children l in
  (* Add moon to earth *)
  let mat := set_filename (l_mat l) (texture_fname (Moon cat)) in
  moon_shape ← new_RenderShapeData (sphere mat);
  moon ← new_Planet (Planet_new (diameter (Moon cat) / #20000)
                                (scaleVelocity (#1 / orbital_period (Moon cat)))
                                (rotational_velocity (Moon cat) / diameter (Moon cat))
                                (dist (l_mt l))
                                (orbital_radius (Moon cat) * #1.5)
                                (computeAxis (orbital_inclination (Moon cat)))
                                moon_shape);
  let data := l_data l ++ [moon_shape] in
  (* Set up hierarchy *)
  match sun_children !! 2%nat with
  | None => undefined                      (* sun_children[2] out of range *)
  | Some third =>
      setParent moon (Some third);;
      setChildren third [moon];;
      setChildren sun sun_children;;
      set_m_root (Some sun);;
      ret data
  end.

(* ----------------------------------------------------------------- *)
(** *** Per-frame update *)

(** Modelled from the spec: [Planet::updateCTM] ([planet/planet.cpp]) is not
    among the sources.  The spec's per-frame update visits the tree in
    pre-order, advancing each node before its children.  The transforms the
    same paragraph derives are functions of the state the update leaves
    ([localTransform] and [effectiveTransform] below); neither the sources
    nor the spec say where the code keeps them, so they are no component of
    the state. *)
Fixpoint updateCTM (fuel : nat) (curr : addr) (deltaTime : float) : M unit :=
  match fuel with
  | O => out_of_fuel
  | S fuel' =>
      p ← load curr;
      store curr (advance_node deltaTime p);;
      for_each (getChildren p) (fun _ c => updateCTM fuel' c deltaTime) tt
  end.

(** [PlanetarySystem::update]: [m_root->updateCTM(deltaTime)]. *)
Definition update (deltaTime : float) : M unit :=
  fun s => match m_root s with
           | Some root => updateCTM (length (planets s)) root deltaTime s
           | None => Undefined
           end.

(** Any number of per-frame updates, one after the other. *)
Fixpoint advance_many (dts : list float) : M unit :=
  match dts with
  | [] => ret tt
  | dt :: rest => update dt;; advance_many rest
  end.

(* ----------------------------------------------------------------- *)
(** *** Orbit loci *)

(** The two matrix getters of [Planet] are defined in [planet/planet.cpp],
    which is not among the sources: they are parameters, functions of the
    node's state. *)
Context (getTranslateMat getOrientMat : Planet -> mat4 float).

Definition orbit_ctm (parent p : Planet) : mat4 float :=
  mat4_mul
    (mat4_mul
       (mat4_mul (getTranslateMat parent)
                 (glm.scale (vec3_splat (#2 * getOrbitRadius p))))
       (getOrientMat p))
    mat4_1.

Fixpoint getOrbitCtmsHelper (fuel : nat) (ctms : list (mat4 float)) (p : addr)
    : M (list (mat4 float)) :=
  match fuel with
  | O => out_of_fuel
  | S fuel' =>
      node ← load p;
      ctms ← match getParent node with
             | Some parent =>
                 par ← load parent;
                 ret (ctms ++ [orbit_ctm par node])
             | None => ret ctms
             end;
      for_each (getChildren node)
               (fun ctms child => getOrbitCtmsHelper fuel' ctms child) ctms
  end.

Definition getOrbitCtms : M (list (mat4 float)) :=
  fun s => let orbit_ctms := [] in
           match m_root s with
           | Some root => getOrbitCtmsHelper (length (planets s)) orbit_ctms root s
           | None => Undefined
           end.

End Operations.

(* ================================================================= *)
(** ** The transforms the per-frame update derives *)

Section DerivedTransform.
Context {float : Type} {ops : FloatOps float}.
Local Open Scope float_scope.

Abbreviation Planet := (@Planet float).
Abbreviation state := (@state float).

(** Modelled from the spec: the translation of a node, "along the orbit
    plane defined by its axis at distance orbitRadius and current phase".
    The spec gives no formula for it and [planet/planet.cpp] is not among
    the sources: it is a parameter, a function of the three values the spec
    names. *)
Context (orbitTranslation : vec3 float -> float -> float -> mat4 float).

(** Modelled from the spec: the local transform of a node, the translation
    "composed with a rotation about axis by the current spin angle, composed
    with a uniform scale of scale". *)
Definition localTransform (p : Planet) : mat4 float :=
  mat4_mul
    (mat4_mul (orbitTranslation (axis p) (orbitRadius p) (phase p))
              (rotate mat4_1 (spinAngle p) (axis p)))
    (glm.scale (vec3_splat (scale_ p))).

(** Modelled from the spec: "a node's effective transform for rendering is
    its parent's effective transform composed with its own local
    transform", so that it "reflects the full ancestor chain"; the root's is
    its local transform.  [None] when the chain leaves the live blocks. *)
Fixpoint effectiveTransform (fuel : nat) (h : list (option Planet)) (a : addr)
    : option (mat4 float) :=
  match fuel with
  | O => None
  | S fuel' =>
      match h !! a with
      | Some (Some p) =>
          match getParent p with
          | None => Some (localTransform p)
          | Some pa =>
              match effectiveTransform fuel' h pa with
              | Some m => Some (mat4_mul m (localTransform p))
              | None => None
              end
          end
      | _ => None
      end
  end.

Definition derivedTransform (s : state) (a : addr) : option (mat4 float) :=
  effectiveTransform (length (planets s)) (planets s) a.

(** The observable state of the spec's per-frame update at the nodes [l]:
    [s'] shows the phase, the spin angle and the derived transform that [s]
    shows, at every one of them. *)
Definition same_observable_state (l : list addr) (s s' : state) : Prop :=
  forall x, x ∈ l ->
    exists p p' m,
      planets s !! x = Some (Some p) /\
      planets s' !! x = Some (Some p') /\
      phase p' = phase p /\
      spinAngle p' = spinAngle p /\
      derivedTransform s x = Some m /\
      derivedTransform s' x = Some m.

End DerivedTransform.

(* ================================================================= *)
(** ** Tree shapes

    The shape of a scene graph, apart from the heap that holds it: the
    address of a node and the shapes of its children, in order. *)

#[local] Set Warnings "-register-all".

Inductive tree := Node (a : addr) (kids : list tree).

Definition root (t : tree) : addr := match t with Node a _ => a end.

Fixpoint preorder (t : tree) : list addr :=
  match t with Node a ks => a :: flat_map preorder ks end.

Fixpoint postorder (t : tree) : list addr :=
  match t with Node a ks => flat_map postorder ks ++ [a] end.

Fixpoint height (t : tree) : nat :=
  match t with Node _ ks => S (foldr (fun k m => Nat.max (height k) m) 0%nat ks) end.

Definition built_tree (n0 C : nat) : tree :=
  Node n0 (map (fun i => Node (n0 + S i)%nat
                           (if decide (i = 2%nat) then [Node (n0 + S C)%nat []] else []))
               (seq 0 C)).

Definition leaf (a : addr) : tree := Node a [].

(** In a release order, [c] is released before [a]. *)
Definition before (c a : addr) (l : list addr) : Prop :=
  exists l1 l2 l3, l = l1 ++ c :: l2 ++ a :: l3.

(* ================================================================= *)
(** ** What construction, teardown and update are expected to leave *)

Section Expected.
Context {float : Type} {ops : FloatOps float}.
Local Open Scope float_scope.

Abbreviation Planet := (@Planet float).
Abbreviation state := (@state float).
Abbreviation Catalog := (@Catalog float).
Abbreviation SolarSystemPlanet := (@SolarSystemPlanet float).

Definition planet_of (dist : nat -> float) (sun : addr) (mt0 shape0 : nat)
    (i : nat) (r : SolarSystemPlanet) : Planet :=
  with_parent
    (Planet_new (scaleDiameter (diameter r))
                (scaleVelocity (#1 / orbital_period r))
                (rotational_velocity r / diameter r)
                (dist (mt0 + i)%nat)
                (scaleOrbitalRadius (orbital_radius r))
                (computeAxis (orbital_inclination r))
                (shape0 + i)%nat)
    (Some sun).

Definition material_of (b : float) (f : string) : @SceneMaterial float :=
  {| cDiffuse := Vec4 #1 #1 #1 #0; blend := b;
     textureMap := {| isUsed := true; filename := f; repeatU := #1; repeatV := #1 |} |}.

Definition sun_node (cat : Catalog) (n0 m0 : nat) : Planet :=
  with_children
    (Planet_new (scaleDiameter (diameter (Sun cat))) #0 #0 #0 #0 (Vec3 #0 #1 #0) m0)
    (seq (S n0) (length (Planets cat))).

Definition orbiting_node (cat : Catalog) (dist : nat -> float) (n0 m0 : nat)
    (i : nat) (r : SolarSystemPlanet) : Planet :=
  with_children (planet_of dist n0 0 (S m0) i r)
    (if decide (i = 2%nat) then [(n0 + S (length (Planets cat)))%nat] else []).

Definition moon_node (cat : Catalog) (dist : nat -> float) (n0 m0 : nat) : Planet :=
  with_parent
    (Planet_new (diameter (Moon cat) / #20000)
                (scaleVelocity (#1 / orbital_period (Moon cat)))
                (rotational_velocity (Moon cat) / diameter (Moon cat))
                (dist (length (Planets cat)))
                (orbital_radius (Moon cat) * #1.5)
                (computeAxis (orbital_inclination (Moon cat)))
                (S m0 + length (Planets cat))%nat)
    (Some (n0 + 3)%nat).

Definition built_planets (cat : Catalog) (dist : nat -> float) (n0 m0 : nat)
    : list (option Planet) :=
  Some (sun_node cat n0 m0)
  :: imap (fun i r => Some (orbiting_node cat dist n0 m0 i r)) (Planets cat)
  ++ [Some (moon_node cat dist n0 m0)].

Definition built_shapes (cat : Catalog) : list (@RenderShapeData float) :=
  sphere (material_of #1 (texture_fname (Sun cat)))
  :: map (fun r => sphere (material_of #0.5 (texture_fname r))) (Planets cat)
  ++ [sphere (material_of #0.5 (texture_fname (Moon cat)))].

Definition built_state (cat : Catalog) (dist : nat -> float) (s : state) : state :=
  {| planets := planets s ++ built_planets cat dist (length (planets s)) (length (shapes s));
     shapes := shapes s ++ built_shapes cat;
     released := released s;
     m_root := Some (length (planets s)) |}.

Inductive tree_at (h : list (option Planet)) : option addr -> tree -> Prop :=
  | tree_at_node par a p ks :
      h !! a = Some (Some p) ->
      getParent p = par ->
      getChildren p = map root ks ->
      Forall (tree_at h (Some a)) ks ->
      tree_at h par (Node a ks).

Definition release_all (l : list addr) (s : state) : state :=
  {| planets := foldl (fun h a => <[a := None]> h) (planets s) l;
     shapes := shapes s;
     released := released s ++ l;
     m_root := m_root s |}.

Definition advance_all (dt : float) (l : list addr) (h : list (option Planet))
    : list (option Planet) :=
  foldl (fun h a => alter (fmap (advance_node dt)) a h) h l.

(** Modelled from the spec: the constructor of [PlanetarySystem] is not among
    the sources.  A system on which nothing was built yet has a null root
    (the destructor tests for it) and, here, an empty heap. *)
Definition new_PlanetarySystem : state :=
  {| planets := []; shapes := []; released := []; m_root := None |}.

Context (getTranslateMat getOrientMat : Planet -> mat4 float).

Definition is_locus (h : list (option Planet)) (a : addr) (m : mat4 float) : Prop :=
  exists node pa par,
    h !! a = Some (Some node) /\ getParent node = Some pa /\
    h !! pa = Some (Some par) /\
    m = mat4_mul
          (mat4_mul
             (mat4_mul (getTranslateMat par)
                       (glm.scale (vec3_splat (#2 * getOrbitRadius node))))
             (getOrientMat node))
          mat4_1.

End Expected.

(** What the spec's invariant says of the node at address [a] of a tree
    rooted at [n0], in exact arithmetic, without the upper bound on the
    phase: the root has orbit radius 0, every other node a positive orbit
    radius, a phase that is not negative and an orbital rate that is not
    negative. *)
Definition node_ok (n0 : nat) (a : addr) (p : @Planet R) : Prop :=
  (a = n0 -> orbitRadius p = 0%R) /\
  (a <> n0 -> (0 < orbitRadius p)%R /\ (0 <= phase p)%R /\ (0 <= orbitalRate p)%R).

(* ================================================================= *)
(** ** Properties that hold for every float arithmetic *)

Section Theory.
Context {float : Type} {ops : FloatOps float}.
Local Open Scope float_scope.

Abbreviation Planet := (@Planet float).
Abbreviation state := (@state float).
Abbreviation M := (@M float).
Abbreviation Catalog := (@Catalog float).
Abbreviation SolarSystemPlanet := (@SolarSystemPlanet float).

Lemma bind_ok {A B} (m : M A) (k : A -> M B) s a s' :
  m s = Ok (a, s') -> bind m k s = k a s'.
Proof. unfold bind. intros ->. reflexivity. Qed.

Lemma load_live (s : state) a p :
  planets s !! a = Some (Some p) -> load a s = Ok (p, s).
Proof. unfold load. intros ->. reflexivity. Qed.

Lemma store_live (s : state) a p q :
  planets s !! a = Some (Some p) ->
  store a q s = Ok (tt, with_planets s (<[a := Some q]> (planets s))).
Proof. unfold store. intros ->. reflexivity. Qed.

Lemma setParent_live (s : state) a p q :
  planets s !! a = Some (Some p) ->
  setParent a q s = Ok (tt, with_planets s (<[a := Some (with_parent p q)]> (planets s))).
Proof.
  intros H. unfold setParent. rewrite (bind_ok _ _ _ _ _ (load_live _ _ _ H)).
  exact (store_live _ _ _ _ H).
Qed.

Lemma setChildren_live (s : state) a p cs :
  planets s !! a = Some (Some p) ->
  setChildren a cs s = Ok (tt, with_planets s (<[a := Some (with_children p cs)]> (planets s))).
Proof.
  intros H. unfold setChildren. rewrite (bind_ok _ _ _ _ _ (load_live _ _ _ H)).
  exact (store_live _ _ _ _ H).
Qed.

Lemma insert_last {A} (h : list A) n x y :
  n = length h -> <[n := y]> (h ++ [x]) = h ++ [y].
Proof.
  intros ->. replace (length h) with (length h + 0)%nat at 1 by lia.
  rewrite insert_app_r. reflexivity.
Qed.

Lemma add_planets_spec dist sun ps : forall l (s : state),
  add_planets dist sun ps l s =
  Ok ({| l_mat := foldl (fun m r => set_filename m (texture_fname r)) (l_mat l) ps;
         l_sun_children := l_sun_children l ++ seq (length (planets s)) (length ps);
         l_data := l_data l ++ seq (length (shapes s)) (length ps);
         l_mt := l_mt l + length ps |},
      {| planets := planets s ++
           imap (fun i r => Some (planet_of dist sun (l_mt l) (length (shapes s)) i r)) ps;
         shapes := shapes s ++
           map (fun r => sphere (set_filename (l_mat l) (texture_fname r))) ps;
         released := released s; m_root := m_root s |}).
Proof.
  induction ps as [|r ps IH]; intros [m cs d k] [h g rel root].
  - simpl. unfold ret. rewrite !app_nil_r, Nat.add_0_r. reflexivity.
  - cbn [add_planets l_mat l_sun_children l_data l_mt].
    rewrite (bind_ok _ _ _ _ _ eq_refl). cbn [planets shapes released m_root].
    rewrite (bind_ok _ _ _ _ _ eq_refl).
    unfold with_planets. cbn [planets shapes released m_root].
    erewrite bind_ok; cycle 1.
    { apply setParent_live. cbn [planets]. apply list_lookup_middle. reflexivity. }
    unfold with_planets. cbn [planets shapes released m_root].
    rewrite insert_last by reflexivity. rewrite IH.
    cbn [planets shapes released m_root l_mat l_sun_children l_data l_mt].
    rewrite !length_app. cbn [length foldl map imap seq].
    rewrite <- !app_assoc. cbn [app].
    rewrite !Nat.add_1_r.
    assert (Hhd : planet_of dist sun k (length g) 0 r =
                  with_parent
                    (Planet_new (scaleDiameter (diameter r))
                       (scaleVelocity (#1 / orbital_period r))
                       (rotational_velocity r / diameter r) (dist k)
                       (scaleOrbitalRadius (orbital_radius r))
                       (computeAxis (orbital_inclination r)) (length g))
                    (Some sun)).
    { unfold planet_of. rewrite !Nat.add_0_r. reflexivity. }
    assert (Htl : imap (fun i r0 => Some (planet_of dist sun (S k) (S (length g)) i r0)) ps =
                  imap ((fun i r0 => Some (planet_of dist sun k (length g) i r0)) ∘ S) ps).
    { apply imap_ext. intros i x _. simpl. unfold planet_of.
      replace (S k + i)%nat with (k + S i)%nat by lia.
      replace (S (length g) + i)%nat with (length g + S i)%nat by lia.
      reflexivity. }
    rewrite Hhd, Htl. replace (k + S (length ps))%nat with (S k + length ps)%nat by lia.
    reflexivity.
Qed.

Lemma foldl_set_filename (m : @SceneMaterial float) (ps : list SolarSystemPlanet) f :
  set_filename (foldl (fun m r => set_filename m (texture_fname r)) m ps) f =
  set_filename m f.
Proof.
  revert m. induction ps as [|r ps IH]; intros m; [reflexivity|].
  simpl. rewrite IH. reflexivity.
Qed.

Lemma lookup_seg {A} (h seg : list A) i : (h ++ seg) !! (length h + i)%nat = seg !! i.
Proof. rewrite lookup_app_r by lia. f_equal. lia. Qed.

Lemma seg_lookup_0 {A} (h t : list A) x : (h ++ x :: t) !! length h = Some x.
Proof. apply list_lookup_middle. reflexivity. Qed.

Lemma seg_lookup_S {A} (h t : list A) x i : (h ++ x :: t) !! (length h + S i)%nat = t !! i.
Proof. rewrite lookup_seg. reflexivity. Qed.

Lemma seg_insert_0 {A} (h t : list A) x y : <[length h := y]> (h ++ x :: t) = h ++ y :: t.
Proof.
  replace (length h) with (length h + 0)%nat at 1 by lia.
  rewrite insert_app_r. reflexivity.
Qed.

Lemma seg_insert_S {A} (h t : list A) x y i :
  <[(length h + S i)%nat := y]> (h ++ x :: t) = h ++ x :: <[i := y]> t.
Proof. rewrite insert_app_r. reflexivity. Qed.

Lemma insert_imap {A B} (f g : nat -> A -> B) (l : list A) k x :
  l !! k = Some x ->
  (forall i y, i <> k -> g i y = f i y) ->
  <[k := g k x]> (imap f l) = imap g l.
Proof.
  intros Hk Hg. apply list_eq. intros i.
  rewrite list_lookup_insert, !list_lookup_imap, length_imap.
  case_decide as Hd.
  - destruct Hd as [-> _]. rewrite Hk. reflexivity.
  - destruct (decide (i = k)) as [->|Hne].
    + exfalso. apply Hd. split; [reflexivity|]. eapply lookup_lt_Some, Hk.
    + destruct (l !! i); [simpl; rewrite Hg by done|]; reflexivity.
Qed.

(** The hierarchy set-up at the end of [generateSolarSystem], run on the
    heap the allocations leave. *)

Lemma set_up_hierarchy (F : nat -> SolarSystemPlanet -> Planet)
    (ps : list SolarSystemPlanet) (p2 : SolarSystemPlanet)
    (h : list (option Planet)) g rel root sun0 moon0 cs (data : list addr) :
  ps !! 2%nat = Some p2 ->
  let moon := (length h + S (length ps))%nat in
  let third := (length h + 3)%nat in
  (setParent moon (Some third);;
   setChildren third [moon];;
   setChildren (length h) cs;;
   set_m_root (Some (length h));;
   ret data)%M
    {| planets := h ++ Some sun0 :: (imap (fun i r => Some (F i r)) ps ++ [Some moon0]);
       shapes := g; released := rel; m_root := root |} =
  Ok (data,
      {| planets := h ++ Some (with_children sun0 cs)
           :: (imap (fun i r => Some (with_children (F i r)
                                        (if decide (i = 2%nat) then [moon] else children (F i r)))) ps
               ++ [Some (with_parent moon0 (Some third))]);
         shapes := g; released := rel; m_root := Some (length h) |}).
Proof.
  intros Hp2 moon third. subst moon third.
  assert (Hlen : length (imap (fun i r => Some (F i r)) ps) = length ps) by apply length_imap.
  erewrite bind_ok; cycle 1.
  { apply setParent_live. cbn [planets].
    rewrite seg_lookup_S, <- Hlen. apply list_lookup_middle. reflexivity. }
  unfold with_planets; cbn [planets shapes released m_root].
  rewrite seg_insert_S, insert_last by (symmetry; exact Hlen).
  erewrite bind_ok; cycle 1.
  { apply setChildren_live. cbn [planets].
    rewrite seg_lookup_S, lookup_app_l, list_lookup_imap, Hp2; [reflexivity|].
    rewrite Hlen. eapply lookup_lt_Some, Hp2. }
  unfold with_planets; cbn [planets shapes released m_root].
  rewrite seg_insert_S, insert_app_l; cycle 1.
  { rewrite Hlen. eapply lookup_lt_Some, Hp2. }
  erewrite bind_ok; cycle 1.
  { apply setChildren_live. cbn [planets]. apply seg_lookup_0. }
  unfold with_planets; cbn [planets shapes released m_root].
  rewrite seg_insert_0.
  rewrite (bind_ok _ _ _ _ _ eq_refl). unfold ret. cbn [planets shapes released m_root].
  do 5 f_equal. apply (f_equal (fun l => l ++ _)).
  pose proof (insert_imap (fun i r => Some (F i r))
           (fun i r => Some (with_children (F i r)
              (if decide (i = 2%nat) then [(length h + S (length ps))%nat]
               else children (F i r)))) ps 2 p2 Hp2) as Hins.
  cbv beta in Hins. rewrite decide_True in Hins by reflexivity.
  apply Hins. intros i y Hi. rewrite decide_False by done.
  destruct (F i y); reflexivity.
Qed.

Lemma seq_two_more n k : seq n (k + 2) = n :: seq (S n) k ++ [(n + 1 + k)%nat].
Proof.
  replace (k + 2)%nat with (S k + 1)%nat by lia.
  rewrite seq_app. cbn [seq app]. do 2 f_equal. f_equal. lia.
Qed.

Lemma generateSolarSystem_spec cat dist (s : state) :
  3 <= length (Planets cat) ->
  generateSolarSystem cat dist s =
  Ok (seq (length (shapes s)) (length (Planets cat) + 2), built_state cat dist s).
Proof.
  intros HC.
  destruct (lookup_lt_is_Some_2 (Planets cat) 2 ltac:(lia)) as [p2 Hp2].
  destruct s as [h g rel root].
  unfold generateSolarSystem, built_state.
  cbn [planets shapes released m_root].
  rewrite (bind_ok _ _ _ _ _ eq_refl). cbn [planets shapes released m_root].
  rewrite (bind_ok _ _ _ _ _ eq_refl).
  unfold with_planets. cbn [planets shapes released m_root].
  rewrite (bind_ok _ _ _ _ _ (add_planets_spec _ _ _ _ _)).
  cbn [planets shapes released m_root l_mat l_sun_children l_data l_mt].
  rewrite (bind_ok _ _ _ _ _ eq_refl). cbn [planets shapes released m_root].
  rewrite (bind_ok _ _ _ _ _ eq_refl).
  unfold with_planets. cbn [planets shapes released m_root].
  rewrite foldl_set_filename.
  rewrite !length_app, length_imap, length_map. cbn [length app].
  rewrite lookup_seq_lt by lia.
  rewrite <- !app_assoc. cbn [app].
  replace (length h + 1 + length (Planets cat))%nat
    with (length h + S (length (Planets cat)))%nat by lia.
  replace (length h + 1 + 2)%nat with (length h + 3)%nat by lia.
  rewrite (set_up_hierarchy _ _ _ _ _ _ _ _ _ _ _ Hp2).
  f_equal. f_equal.
  - rewrite seq_two_more. cbn [app]. rewrite Nat.add_1_r. reflexivity.
  - rewrite !Nat.add_1_r. reflexivity.
Qed.

Lemma generateSolarSystem_too_few cat dist (s : state) :
  length (Planets cat) < 3 -> generateSolarSystem cat dist s = Undefined.
Proof.
  intros HC. destruct s as [h g rel root].
  unfold generateSolarSystem.
  rewrite (bind_ok _ _ _ _ _ eq_refl). cbn [planets shapes released m_root].
  rewrite (bind_ok _ _ _ _ _ eq_refl).
  rewrite (bind_ok _ _ _ _ _ (add_planets_spec _ _ _ _ _)).
  rewrite (bind_ok _ _ _ _ _ eq_refl).
  rewrite (bind_ok _ _ _ _ _ eq_refl).
  cbn [l_sun_children app].
  rewrite lookup_seq_ge by lia. reflexivity.
Qed.

(* ---------- trees ---------- *)

Lemma built_lookup_sun cat dist (h : list (option Planet)) m0 :
  (h ++ built_planets cat dist (length h) m0) !! length h =
  Some (Some (sun_node cat (length h) m0)).
Proof. apply seg_lookup_0. Qed.

Lemma built_lookup_orbiting cat dist (h : list (option Planet)) m0 i r :
  Planets cat !! i = Some r ->
  (h ++ built_planets cat dist (length h) m0) !! (length h + S i)%nat =
  Some (Some (orbiting_node cat dist (length h) m0 i r)).
Proof.
  intros Hr. unfold built_planets. rewrite seg_lookup_S, lookup_app_l.
  - rewrite list_lookup_imap, Hr. reflexivity.
  - rewrite length_imap. eapply lookup_lt_Some, Hr.
Qed.

Lemma built_lookup_moon cat dist (h : list (option Planet)) m0 :
  (h ++ built_planets cat dist (length h) m0) !! (length h + S (length (Planets cat)))%nat =
  Some (Some (moon_node cat dist (length h) m0)).
Proof.
  unfold built_planets. rewrite seg_lookup_S. apply list_lookup_middle.
  rewrite length_imap. reflexivity.
Qed.

Lemma map_offset_seq n0 C : forall j,
  map (fun i => (n0 + S i)%nat) (seq j C) = seq (n0 + S j) C.
Proof.
  induction C as [|C IH]; intros j; [reflexivity|].
  cbn [seq map]. rewrite IH. do 2 f_equal. lia.
Qed.

Lemma built_tree_at cat dist (h : list (option Planet)) m0 :
  3 <= length (Planets cat) ->
  tree_at (h ++ built_planets cat dist (length h) m0) None
          (built_tree (length h) (length (Planets cat))).
Proof.
  intros HC. unfold built_tree.
  eapply tree_at_node; [apply built_lookup_sun | reflexivity | |].
  - cbn. rewrite map_map. cbn [root].
    rewrite map_offset_seq. f_equal. lia.
  - apply Forall_forall. intros t Ht.
    apply list_elem_of_In, in_map_iff in Ht. destruct Ht as (i & <- & Hi).
    apply in_seq in Hi.
    destruct (lookup_lt_is_Some_2 (Planets cat) i ltac:(lia)) as [r Hr].
    eapply tree_at_node; [apply (built_lookup_orbiting _ _ _ _ _ _ Hr) | reflexivity | |].
    + cbn. case_decide; reflexivity.
    + case_decide; [|constructor]. constructor; [|constructor].
      eapply tree_at_node; [apply built_lookup_moon | | reflexivity | constructor].
      cbn. subst i. reflexivity.
Qed.

(* ---------- generic tree facts ---------- *)

Lemma tree_ind_forall (P : tree -> Prop) :
  (forall a ks, Forall P ks -> P (Node a ks)) -> forall t, P t.
Proof.
  intros H. fix IH 1. intros [a ks]. apply H.
  induction ks as [|k ks IHks]; constructor; [apply IH | exact IHks].
Qed.

Lemma height_kids a ks fuel :
  height (Node a ks) <= S fuel -> Forall (fun k => height k <= fuel) ks.
Proof.
  cbn [height]. intros H. apply le_S_n in H.
  induction ks as [|k ks IH]; constructor; cbn [foldr] in H; [lia|].
  apply IH. lia.
Qed.

Lemma elem_of_flat_map {A B} (f : A -> list B) (l : list A) y :
  y ∈ flat_map f l <-> exists x, x ∈ l /\ y ∈ f x.
Proof.
  rewrite list_elem_of_In, in_flat_map. split; intros (x & Hx & Hy); exists x.
  - split; apply list_elem_of_In; assumption.
  - split; apply list_elem_of_In; assumption.
Qed.

Lemma postorder_preorder t : postorder t ≡ₚ preorder t.
Proof.
  induction t as [a ks IH] using tree_ind_forall. cbn [postorder preorder].
  rewrite <- Permutation_cons_append. constructor.
  induction IH as [|k ks Hk _ IHks]; [reflexivity|].
  cbn [flat_map]. rewrite Hk, IHks. reflexivity.
Qed.

(* ---------- teardown ---------- *)

Lemma release_all_nil (s : state) : release_all [] s = s.
Proof. destruct s. unfold release_all. cbn. rewrite app_nil_r. reflexivity. Qed.

Lemma release_all_app l1 l2 (s : state) :
  release_all (l1 ++ l2) s = release_all l2 (release_all l1 s).
Proof.
  unfold release_all. cbn [planets shapes released m_root].
  rewrite foldl_app, app_assoc. reflexivity.
Qed.

Lemma lookup_release_notin l : forall (h : list (option Planet)) a,
  a ∉ l -> foldl (fun h a => <[a := None]> h) h l !! a = h !! a.
Proof.
  induction l as [|x l IH]; intros h a Ha; [reflexivity|].
  cbn [foldl]. rewrite IH by set_solver.
  apply list_lookup_insert_ne. set_solver.
Qed.

Lemma lookup_release_in l : forall (h : list (option Planet)) a,
  a ∈ l -> a < length h -> foldl (fun h a => <[a := None]> h) h l !! a = Some None.
Proof.
  induction l as [|x l IH]; intros h a Ha Hlt; [set_solver|].
  cbn [foldl]. destruct (decide (a ∈ l)) as [Hin|Hnin].
  - apply IH; [exact Hin | rewrite length_insert; exact Hlt].
  - rewrite lookup_release_notin by exact Hnin.
    apply elem_of_cons in Ha as [Hax|Hin]; [subst x | contradiction].
    apply list_lookup_insert_eq. exact Hlt.
Qed.

Lemma tree_at_release l t : forall (h : list (option Planet)) par,
  tree_at h par t ->
  (forall x, x ∈ preorder t -> x ∉ l) ->
  tree_at (foldl (fun h a => <[a := None]> h) h l) par t.
Proof.
  induction t as [a ks IH] using tree_ind_forall. intros h par Ht Hdisj.
  inversion Ht as [par' a' p ks' Hl Hp Hc Hks]; subst.
  eapply tree_at_node; [| reflexivity | exact Hc |].
  - rewrite lookup_release_notin; [exact Hl|]. apply Hdisj. cbn. set_solver.
  - rewrite Forall_forall in IH, Hks. apply Forall_forall. intros k Hk.
    apply IH; [exact Hk | apply Hks, Hk |].
    intros x Hx. apply Hdisj. cbn [preorder]. apply list_elem_of_further.
    apply elem_of_flat_map. exists k. split; assumption.
Qed.

Lemma delete_live (s : state) a p :
  planets s !! a = Some (Some p) -> delete a s = Ok (tt, release_all [a] s).
Proof. unfold delete. intros ->. reflexivity. Qed.

Lemma deletePlanet_tree fuel : forall t par (s : state),
  tree_at (planets s) par t ->
  NoDup (preorder t) ->
  height t <= fuel ->
  deletePlanet fuel (root t) s = Ok (tt, release_all (postorder t) s).
Proof.
  induction fuel as [|fuel IH]; intros [a ks] par s Ht Hnd Hh;
    [cbn [height] in Hh; lia|].
  inversion Ht as [par' a' p ks' Hl Hp Hc Hks]; subst.
  apply height_kids in Hh. cbn [preorder] in Hnd.
  apply NoDup_cons in Hnd as [Ha Hnd].
  cbn [deletePlanet root postorder].
  rewrite (bind_ok _ _ _ _ _ (load_live _ _ _ Hl)), Hc.
  assert (Hloop : forall s' : state,
    Forall (tree_at (planets s') (Some a)) ks ->
    for_each (map root ks) (fun _ p => deletePlanet fuel p) tt s' =
    Ok (tt, release_all (flat_map postorder ks) s')).
  { clear Hl Hc Ht Hks Ha. induction ks as [|k ks IHks]; intros s' Hks.
    - cbn. rewrite release_all_nil. reflexivity.
    - cbn [map for_each flat_map]. cbn [flat_map] in Hnd.
      apply NoDup_app in Hnd as (Hndk & Hdisj & Hndks).
      inversion Hh as [|? ? Hhk Hhks]; subst.
      inversion Hks as [|? ? Hk Hks']; subst.
      rewrite (bind_ok _ _ _ _ _ (IH k (Some a) s' Hk Hndk Hhk)).
      rewrite IHks; [rewrite release_all_app; reflexivity | exact Hndks | exact Hhks |].
      cbn [release_all planets].
      apply Forall_forall. intros t Ht. rewrite Forall_forall in Hks'.
      apply tree_at_release; [apply Hks', Ht|].
      intros x Hx Hpost. rewrite postorder_preorder in Hpost.
      apply (Hdisj x Hpost), elem_of_flat_map. exists t. split; assumption. }
  rewrite (bind_ok _ _ _ _ _ (Hloop s Hks)).
  rewrite release_all_app. apply delete_live with (p := p).
  cbn [release_all planets]. rewrite lookup_release_notin; [exact Hl|].
  rewrite elem_of_flat_map. intros (k & Hk & Hx).
  rewrite postorder_preorder in Hx.
  apply Ha, elem_of_flat_map. exists k. split; assumption.
Qed.

(* ---------- per-frame update ---------- *)

Lemma store_as_alter (h : list (option Planet)) a p (f : Planet -> Planet) :
  h !! a = Some (Some p) -> <[a := Some (f p)]> h = alter (fmap f) a h.
Proof.
  intros Hl. apply list_eq. intros i.
  destruct (decide (a = i)) as [->|Hne].
  - rewrite list_lookup_insert_eq by (eapply lookup_lt_Some, Hl).
    rewrite list_lookup_alter_eq, Hl. reflexivity.
  - rewrite list_lookup_insert_ne, list_lookup_alter_ne by exact Hne. reflexivity.
Qed.

Lemma tree_at_alter dt x t : forall (h : list (option Planet)) par,
  tree_at h par t -> tree_at (alter (fmap (advance_node dt)) x h) par t.
Proof.
  induction t as [a ks IH] using tree_ind_forall. intros h par Ht.
  inversion Ht as [par' a' p ks' Hl Hp Hc Hks]; subst.
  assert (Hks2 : Forall (tree_at (alter (fmap (advance_node dt)) x h) (Some a)) ks).
  { rewrite Forall_forall in IH, Hks. apply Forall_forall. intros k Hk.
    apply IH; [exact Hk | apply Hks, Hk]. }
  destruct (decide (x = a)) as [->|Hne].
  - eapply tree_at_node with (p := advance_node dt p); [| reflexivity | exact Hc | exact Hks2].
    rewrite list_lookup_alter_eq, Hl. reflexivity.
  - eapply tree_at_node with (p := p); [| reflexivity | exact Hc | exact Hks2].
    rewrite list_lookup_alter_ne by exact Hne. exact Hl.
Qed.

Lemma tree_at_advance_all dt l t : forall (h : list (option Planet)) par,
  tree_at h par t -> tree_at (advance_all dt l h) par t.
Proof.
  induction l as [|x l IH]; intros h par Ht; [exact Ht|].
  cbn [advance_all foldl]. apply IH, tree_at_alter, Ht.
Qed.

Lemma updateCTM_tree dt fuel : forall t par (s : state),
  tree_at (planets s) par t ->
  height t <= fuel ->
  updateCTM fuel (root t) dt s =
  Ok (tt, with_planets s (advance_all dt (preorder t) (planets s))).
Proof.
  induction fuel as [|fuel IH]; intros [a ks] par s Ht Hh;
    [cbn [height] in Hh; lia|].
  inversion Ht as [par' a' p ks' Hl Hp Hc Hks]; subst.
  apply height_kids in Hh.
  cbn [updateCTM root preorder].
  rewrite (bind_ok _ _ _ _ _ (load_live _ _ _ Hl)).
  rewrite (bind_ok _ _ _ _ _ (store_live _ _ _ _ Hl)), Hc.
  rewrite (store_as_alter _ _ _ _ Hl).
  assert (Hloop : forall s' : state,
    Forall (tree_at (planets s') (Some a)) ks ->
    for_each (map root ks) (fun _ c => updateCTM fuel c dt) tt s' =
    Ok (tt, with_planets s' (advance_all dt (flat_map preorder ks) (planets s')))).
  { clear Hl Hc Ht Hks. induction ks as [|k ks IHks]; intros s' Hks.
    - cbn. destruct s'; reflexivity.
    - cbn [map for_each flat_map].
      inversion Hh as [|? ? Hhk Hhks]; subst.
      inversion Hks as [|? ? Hk Hks']; subst.
      rewrite (bind_ok _ _ _ _ _ (IH k (Some a) s' Hk Hhk)).
      rewrite IHks; [| exact Hhks |].
      + unfold advance_all. rewrite foldl_app. reflexivity.
      + cbn [with_planets planets].
        eapply Forall_impl; [exact Hks'|]. intros t. apply tree_at_advance_all. }
  rewrite Hloop.
  - reflexivity.
  - cbn [with_planets planets].
    eapply Forall_impl; [exact Hks|]. intros t. apply tree_at_alter.
Qed.

(* ---------- orbit loci ---------- *)

Lemma built_tree_unfold n0 k :
  built_tree n0 (3 + k) =
  Node n0 (leaf (n0 + 1) :: leaf (n0 + 2)
           :: Node (n0 + 3) [leaf (n0 + S (3 + k))]
           :: map (fun i => leaf (n0 + S i)) (seq 3 k))%nat.
Proof.
  unfold built_tree, leaf. cbn [Nat.add seq map]. 
  rewrite !(decide_False (P := _ = 2%nat)) by lia.
  rewrite decide_True by reflexivity.
  f_equal. f_equal. f_equal. f_equal.
  apply map_ext_in. intros i Hi. apply in_seq in Hi.
  rewrite decide_False by lia. reflexivity.
Qed.

Lemma flat_map_leaves (f : tree -> list addr) n0 k j :
  (forall a, f (leaf a) = [a]) ->
  flat_map f (map (fun i => leaf (n0 + S i)%nat) (seq j k)) = seq (n0 + S j) k.
Proof.
  intros Hf. revert j. induction k as [|k IH]; intros j; [reflexivity|].
  cbn [seq map flat_map]. rewrite Hf, IH. cbn. do 2 f_equal. lia.
Qed.

Lemma preorder_built n0 C :
  3 <= C ->
  preorder (built_tree n0 C) =
  [n0; n0 + 1; n0 + 2; n0 + 3; n0 + S C]%nat ++ seq (n0 + 4) (C - 3).
Proof.
  intros HC. replace C with (3 + (C - 3))%nat at 1 2 by lia.
  rewrite built_tree_unfold. cbn [preorder flat_map leaf app].
  rewrite (flat_map_leaves preorder) by reflexivity.
  replace (3 + (C - 3))%nat with C by lia. reflexivity.
Qed.

Lemma postorder_built n0 C :
  3 <= C ->
  postorder (built_tree n0 C) =
  [n0 + 1; n0 + 2; n0 + S C; n0 + 3]%nat ++ seq (n0 + 4) (C - 3) ++ [n0].
Proof.
  intros HC. replace C with (3 + (C - 3))%nat at 1 2 by lia.
  rewrite built_tree_unfold. cbn [postorder flat_map leaf app].
  rewrite (flat_map_leaves postorder) by reflexivity.
  replace (3 + (C - 3))%nat with C by lia. reflexivity.
Qed.

Lemma height_built n0 C : 3 <= C -> height (built_tree n0 C) = 3%nat.
Proof.
  intros HC. replace C with (3 + (C - 3))%nat by lia.
  rewrite built_tree_unfold. unfold leaf. cbn [height foldr].
  assert (H : forall j k, foldr (fun t m => Nat.max (height t) m) 0%nat
                (map (fun i => Node (n0 + S i)%nat []) (seq j k)) <= 1).
  { intros j k. revert j. induction k as [|k IH]; intros j;
      cbn [seq map foldr height]; [lia|].
    apply Nat.max_lub; [reflexivity | apply IH]. }
  specialize (H 3%nat (C - 3)%nat).
  lia.
Qed.

Lemma elem_of_preorder_built n0 C x :
  3 <= C -> x ∈ preorder (built_tree n0 C) <-> n0 <= x <= n0 + S C.
Proof.
  intros HC. rewrite preorder_built by exact HC.
  rewrite elem_of_app, !elem_of_cons, elem_of_nil, elem_of_seq. lia.
Qed.

Lemma NoDup_preorder_built n0 C : 3 <= C -> NoDup (preorder (built_tree n0 C)).
Proof.
  intros HC. rewrite preorder_built by exact HC. cbn [app].
  repeat (apply NoDup_cons; split;
          [rewrite ?elem_of_cons, elem_of_seq; lia|]).
  apply NoDup_seq.
Qed.

Lemma length_built_planets (cat : Catalog) dist n0 m0 :
  length (built_planets cat dist n0 m0) = (length (Planets cat) + 2)%nat.
Proof.
  unfold built_planets. cbn [length]. rewrite length_app, length_imap. cbn. lia.
Qed.

Lemma built_state_tree cat dist (s0 : state) :
  3 <= length (Planets cat) ->
  tree_at (planets (built_state cat dist s0)) None
          (built_tree (length (planets s0)) (length (Planets cat))).
Proof. intros HC. apply built_tree_at, HC. Qed.

Lemma destructor_built cat dist (s0 : state) :
  3 <= length (Planets cat) ->
  PlanetarySystem_destructor (built_state cat dist s0) =
  Ok (tt, release_all
            (postorder (built_tree (length (planets s0)) (length (Planets cat))))
            (built_state cat dist s0)).
Proof.
  intros HC. unfold PlanetarySystem_destructor. cbn [built_state m_root].
  apply (deletePlanet_tree _ (built_tree _ _) None).
  - apply built_state_tree, HC.
  - apply NoDup_preorder_built, HC.
  - rewrite height_built by exact HC. cbn [built_state planets].
    rewrite length_app, length_built_planets. lia.
Qed.

Lemma advance_all_cons dt x l (h : list (option Planet)) :
  advance_all dt (x :: l) h = advance_all dt l (alter (fmap (advance_node dt)) x h).
Proof. reflexivity. Qed.

Lemma lookup_advance_notin dt l : forall (h : list (option Planet)) a,
  a ∉ l -> advance_all dt l h !! a = h !! a.
Proof.
  induction l as [|x l IH]; intros h a Ha; [reflexivity|].
  apply not_elem_of_cons in Ha as [Hne Ha].
  rewrite advance_all_cons. rewrite IH by exact Ha.
  apply list_lookup_alter_ne. congruence.
Qed.

Lemma lookup_advance_in dt l : forall (h : list (option Planet)) a,
  NoDup l -> a ∈ l ->
  advance_all dt l h !! a = fmap (advance_node dt) <$> h !! a.
Proof.
  induction l as [|x l IH]; intros h a Hnd Ha; [inversion Ha|].
  apply NoDup_cons in Hnd as [Hx Hnd].
  rewrite advance_all_cons.
  apply elem_of_cons in Ha as [->|Ha].
  - rewrite lookup_advance_notin by exact Hx. apply list_lookup_alter_eq.
  - rewrite IH by assumption. rewrite list_lookup_alter_ne; [reflexivity|].
    intros ->. contradiction.
Qed.

Lemma length_advance_all dt l : forall (h : list (option Planet)),
  length (advance_all dt l h) = length h.
Proof.
  induction l as [|x l IH]; intros h; [reflexivity|].
  rewrite advance_all_cons. rewrite IH.
  apply length_alter.
Qed.

(** In the release order of a tree, a child comes before its parent. *)

Lemma root_in_postorder t : root t ∈ postorder t.
Proof. destruct t as [a ks]. cbn. apply elem_of_app. right. constructor. Qed.

Lemma before_flat_map (f : tree -> list addr) ks k c a :
  k ∈ ks -> before c a (f k) -> before c a (flat_map f ks).
Proof.
  intros Hk (l1 & l2 & l3 & Hf).
  apply list_elem_of_split in Hk as (ks1 & ks2 & ->).
  rewrite flat_map_app. cbn [flat_map]. rewrite Hf.
  exists (flat_map f ks1 ++ l1), l2, (l3 ++ flat_map f ks2).
  rewrite <- !app_assoc. cbn [app]. rewrite <- !app_assoc. reflexivity.
Qed.

Lemma children_released_first t : forall (h : list (option Planet)) par a p c,
  tree_at h par t ->
  a ∈ preorder t ->
  h !! a = Some (Some p) ->
  c ∈ getChildren p ->
  before c a (postorder t).
Proof.
  induction t as [r ks IH] using tree_ind_forall.
  intros h par a p c Ht Ha Hl Hc.
  inversion Ht as [par' a' q ks' Hlr Hp Hch Hks]; subst.
  cbn [preorder postorder] in *.
  apply elem_of_cons in Ha as [->|Ha].
  - rewrite Hlr in Hl. injection Hl as <-. rewrite Hch in Hc.
    apply list_elem_of_fmap in Hc as (k & -> & Hk).
    assert (Hin : root k ∈ flat_map postorder ks).
    { apply elem_of_flat_map. exists k. split; [exact Hk | apply root_in_postorder]. }
    apply list_elem_of_split in Hin as (l1 & l2 & ->).
    exists l1, l2, []. rewrite <- app_assoc. reflexivity.
  - apply elem_of_flat_map in Ha as (k & Hk & Hak).
    rewrite Forall_forall in IH, Hks.
    destruct (before_flat_map postorder ks k c a Hk
                (IH k Hk h (Some r) a p c (Hks k Hk) Hak Hl Hc)) as (l1 & l2 & l3 & ->).
    exists l1, l2, (l3 ++ [r]). rewrite <- !app_assoc. cbn [app].
    rewrite <- !app_assoc. reflexivity.
Qed.

Lemma build_ok cat dist (s0 : state) :
  3 <= length (Planets cat) ->
  generateSolarSystem cat dist s0 =
  Ok (seq (length (shapes s0)) (length (Planets cat) + 2), built_state cat dist s0).
Proof. apply generateSolarSystem_spec. Qed.

Lemma built_shape_lookup_sun cat (g : list (@RenderShapeData float)) :
  (g ++ built_shapes cat) !! length g =
  Some (sphere (material_of #1 (texture_fname (Sun cat)))).
Proof. apply seg_lookup_0. Qed.

Lemma built_shape_lookup_orbiting cat (g : list (@RenderShapeData float)) i r :
  Planets cat !! i = Some r ->
  (g ++ built_shapes cat) !! (length g + S i)%nat =
  Some (sphere (material_of #0.5 (texture_fname r))).
Proof.
  intros Hr. unfold built_shapes. rewrite seg_lookup_S, lookup_app_l.
  - rewrite list_lookup_fmap, Hr. reflexivity.
  - rewrite length_map. eapply lookup_lt_Some, Hr.
Qed.

Lemma built_shape_lookup_moon cat (g : list (@RenderShapeData float)) :
  (g ++ built_shapes cat) !! (length g + S (length (Planets cat)))%nat =
  Some (sphere (material_of #0.5 (texture_fname (Moon cat)))).
Proof.
  unfold built_shapes. rewrite seg_lookup_S. apply list_lookup_middle.
  rewrite length_map. reflexivity.
Qed.

Lemma update_tree dt t (s : state) :
  m_root s = Some (root t) ->
  tree_at (planets s) None t ->
  height t <= length (planets s) ->
  update dt s = Ok (tt, with_planets s (advance_all dt (preorder t) (planets s))).
Proof.
  intros Hroot Ht Hh. unfold update. rewrite Hroot.
  apply (updateCTM_tree dt _ t None s Ht Hh).
Qed.

Context (getTranslateMat getOrientMat : Planet -> mat4 float).

Lemma getOrbitCtmsHelper_tree fuel : forall t par ctms (s : state),
  tree_at (planets s) par t ->
  height t <= fuel ->
  (forall pa, par = Some pa -> exists p, planets s !! pa = Some (Some p)) ->
  exists out,
    getOrbitCtmsHelper getTranslateMat getOrientMat fuel ctms (root t) s =
      Ok (ctms ++ out, s) /\
    Forall2 (is_locus getTranslateMat getOrientMat (planets s))
            (match par with Some _ => preorder t | None => tl (preorder t) end) out.
Proof.
  induction fuel as [|fuel IH]; intros [a ks] par ctms s Ht Hh Hpar;
    [cbn [height] in Hh; lia|].
  inversion Ht as [par' a' p ks' Hl Hp Hc Hks]; subst.
  apply height_kids in Hh.
  cbn [getOrbitCtmsHelper root preorder].
  rewrite (bind_ok _ _ _ _ _ (load_live _ _ _ Hl)), Hc.
  assert (Hloop : forall ctms',
    exists out,
      for_each (map root ks)
        (fun ctms child => getOrbitCtmsHelper getTranslateMat getOrientMat fuel ctms child)
        ctms' s = Ok (ctms' ++ out, s) /\
      Forall2 (is_locus getTranslateMat getOrientMat (planets s))
              (flat_map preorder ks) out).
  { clear Hc Ht Hpar. induction ks as [|k ks IHks]; intros ctms'.
    - exists []. cbn. rewrite app_nil_r. split; [reflexivity | constructor].
    - cbn [map for_each flat_map].
      inversion Hh as [|? ? Hhk Hhks]; subst.
      inversion Hks as [|? ? Hk Hks']; subst.
      destruct (IH k (Some a) ctms' s Hk Hhk) as (o1 & Ho1 & HF1).
      { intros pa [= <-]. exists p. exact Hl. }
      destruct (IHks Hhks Hks' (ctms' ++ o1)) as (o2 & Ho2 & HF2).
      exists (o1 ++ o2). rewrite (bind_ok _ _ _ _ _ Ho1), Ho2, app_assoc.
      split; [reflexivity | apply Forall2_app; assumption]. }
  destruct (getParent p) as [pa|] eqn:Hgp.
  - destruct (Hpar pa eq_refl) as [q Hq].
    rewrite (bind_ok _ _ _ _ _ (bind_ok _ _ _ _ _ (load_live _ _ _ Hq))).
    destruct (Hloop (ctms ++ [orbit_ctm getTranslateMat getOrientMat q p])) as (o & Ho & HF).
    exists (orbit_ctm getTranslateMat getOrientMat q p :: o).
    rewrite Ho, <- app_assoc. split; [reflexivity|].
    constructor; [|exact HF]. exists p, pa, q. repeat split; assumption.
  - rewrite (bind_ok _ _ _ _ _ eq_refl). apply Hloop.
Qed.

Lemma getOrbitCtms_built cat dist (s0 : state) :
  3 <= length (Planets cat) ->
  exists ctms,
    getOrbitCtms getTranslateMat getOrientMat (built_state cat dist s0) =
      Ok (ctms, built_state cat dist s0) /\
    Forall2 (is_locus getTranslateMat getOrientMat (planets (built_state cat dist s0)))
      (tl (preorder (built_tree (length (planets s0)) (length (Planets cat))))) ctms.
Proof.
  intros HC. unfold getOrbitCtms. cbn [built_state m_root].
  destruct (getOrbitCtmsHelper_tree
              (length (planets (built_state cat dist s0)))
              (built_tree (length (planets s0)) (length (Planets cat))) None []
              (built_state cat dist s0)) as (out & Hout & HF).
  - apply built_state_tree, HC.
  - rewrite height_built by exact HC. cbn [built_state planets].
    rewrite length_app, length_built_planets. lia.
  - intros pa [=].
  - exists out. split; [exact Hout | exact HF].
Qed.

(* ----------------------------------------------------------------- *)
(** *** Properties of the spec that do not depend on the arithmetic *)

(** C1, as the code has it.  The build validates nothing: for every catalog
    with at least three orbiting-body records it constructs the whole tree,
    whatever the signs of the diameters, orbital radii and orbital periods;
    the scaled values of a record go into its node as they are computed. *)
Theorem build_ignores_record_values (cat : Catalog) (dist : nat -> float)
    (s0 : state) :
  3 <= length (Planets cat) ->
  let C := length (Planets cat) in
  let n0 := length (planets s0) in
  exists data s,
    generateSolarSystem cat dist s0 = Ok (data, s) /\
    m_root s = Some n0 /\
    tree_at (planets s) None (built_tree n0 C) /\
    (forall i r, Planets cat !! i = Some r ->
       exists p, planets s !! (n0 + S i)%nat = Some (Some p) /\
                 scale_ p = scaleDiameter (diameter r) /\
                 orbitalRate p = scaleVelocity (#1 / orbital_period r) /\
                 orbitRadius p = scaleOrbitalRadius (orbital_radius r)).
Proof.
  intros HC C n0.
  exists (seq (length (shapes s0)) (C + 2)), (built_state cat dist s0).
  split; [apply build_ok, HC|].
  split; [reflexivity|].
  split; [apply built_state_tree, HC|].
  intros i r Hr. eexists.
  split; [apply (built_lookup_orbiting _ _ _ _ _ _ Hr)|].
  repeat split.
Qed.

(** C2.  For a catalog with [C >= 3] orbiting-body records and one satellite
    record, the build creates exactly [1 + C + 1] nodes, which form the tree
    [built_tree]: the root has no parent and [C] children, the [i]-th child
    being the node built from the [i]-th record (its payload carries that
    record's texture); the third child has the satellite as its only child,
    every other child has none, and the satellite has no children. *)
Theorem built_tree_shape (cat : Catalog) (dist : nat -> float) (s0 : state) :
  3 <= length (Planets cat) ->
  let C := length (Planets cat) in
  let n0 := length (planets s0) in
  exists data s sun moon,
    generateSolarSystem cat dist s0 = Ok (data, s) /\
    length (planets s) = (length (planets s0) + (1 + C + 1))%nat /\
    tree_at (planets s) None (built_tree n0 C) /\
    length (preorder (built_tree n0 C)) = (1 + C + 1)%nat /\
    m_root s = Some n0 /\
    planets s !! n0 = Some (Some sun) /\
    getParent sun = None /\
    length (getChildren sun) = C /\
    (forall i r, Planets cat !! i = Some r ->
       exists c p sh,
         getChildren sun !! i = Some c /\
         planets s !! c = Some (Some p) /\
         getParent p = Some n0 /\
         shapes s !! renderHandle p = Some sh /\
         filename (textureMap (material (primitive sh))) = texture_fname r /\
         getChildren p = if decide (i = 2%nat) then [(n0 + S C)%nat] else []) /\
    planets s !! (n0 + S C)%nat = Some (Some moon) /\
    getParent moon = getChildren sun !! 2%nat /\
    getChildren moon = [].
Proof.
  intros HC C n0.
  exists (seq (length (shapes s0)) (C + 2)), (built_state cat dist s0),
         (sun_node cat n0 (length (shapes s0))),
         (moon_node cat dist n0 (length (shapes s0))).
  split; [apply build_ok, HC|].
  split; [cbn [built_state planets]; rewrite length_app, length_built_planets; lia|].
  split; [apply built_state_tree, HC|].
  split; [rewrite preorder_built by exact HC; cbn [length app];
          rewrite length_seq; lia|].
  split; [reflexivity|].
  split; [apply built_lookup_sun|].
  split; [reflexivity|].
  split; [cbn; apply length_seq|].
  split; [|split; [apply built_lookup_moon|split; [|reflexivity]]].
  - intros i r Hr.
    exists (n0 + S i)%nat, (orbiting_node cat dist n0 (length (shapes s0)) i r),
           (sphere (material_of #0.5 (texture_fname r))).
    split. { cbn. rewrite lookup_seq_lt by (eapply lookup_lt_Some, Hr). f_equal. lia. }
    split; [apply (built_lookup_orbiting _ _ _ _ _ _ Hr)|].
    split; [reflexivity|].
    split. { cbn [built_state shapes orbiting_node planet_of with_children with_parent
                  Planet_new renderHandle].
             replace (S (length (shapes s0)) + i)%nat
               with (length (shapes s0) + S i)%nat by lia.
             apply built_shape_lookup_orbiting, Hr. }
    split; reflexivity.
  - cbn. rewrite lookup_seq_lt by exact HC. f_equal. lia.
Qed.

(** C3.  On a built tree [getOrbitCtms] returns [C + 1] transforms, one per
    node other than the root, in the pre-order of the tree (the root's
    children in construction order, the satellite right after the third
    child); the entry of a node is its parent's translation matrix times the
    uniform scale by [2 * orbitRadius] times the node's orientation matrix
    (times the identity, as the source writes it). *)
Theorem orbit_loci_in_preorder (cat : Catalog) (dist : nat -> float) (s0 : state) :
  3 <= length (Planets cat) ->
  let C := length (Planets cat) in
  let n0 := length (planets s0) in
  exists data s ctms,
    generateSolarSystem cat dist s0 = Ok (data, s) /\
    getOrbitCtms getTranslateMat getOrientMat s = Ok (ctms, s) /\
    length ctms = (C + 1)%nat /\
    length ctms = (length (preorder (built_tree n0 C)) - 1)%nat /\
    tree_at (planets s) None (built_tree n0 C) /\
    tl (preorder (built_tree n0 C)) =
      [n0 + 1; n0 + 2; n0 + 3; n0 + S C]%nat ++ seq (n0 + 4) (C - 3) /\
    Forall2 (is_locus getTranslateMat getOrientMat (planets s))
            (tl (preorder (built_tree n0 C))) ctms.
Proof.
  intros HC C n0.
  destruct (getOrbitCtms_built cat dist s0 HC) as (ctms & Hrun & HF).
  assert (Hpre : tl (preorder (built_tree n0 C)) =
                 [n0 + 1; n0 + 2; n0 + 3; n0 + S C]%nat ++ seq (n0 + 4) (C - 3)).
  { unfold n0, C. rewrite preorder_built by exact HC. reflexivity. }
  assert (Hlen : length ctms = (C + 1)%nat).
  { rewrite <- (Forall2_length _ _ _ HF). fold n0 C. rewrite Hpre.
    cbn [length app]. rewrite length_seq. lia. }
  exists (seq (length (shapes s0)) (C + 2)), (built_state cat dist s0), ctms.
  split; [apply build_ok, HC|].
  split; [exact Hrun|].
  split; [exact Hlen|].
  split. { rewrite Hlen. unfold n0, C. rewrite preorder_built by exact HC.
           cbn [length app]. rewrite length_seq. lia. }
  split; [apply built_state_tree, HC|].
  split; [exact Hpre | exact HF].
Qed.

(** C7.  The build returns the payloads it created in the order central
    body, orbiting bodies in catalog order, satellite; each is a sphere with
    the identity as its transform, and each node refers to the payload at
    its position.  The tree does not own them: teardown releases the nodes
    and leaves every payload in place. *)
Theorem render_payloads_in_catalog_order (cat : Catalog) (dist : nat -> float)
    (s0 : state) :
  3 <= length (Planets cat) ->
  let C := length (Planets cat) in
  let n0 := length (planets s0) in
  let texture (a : addr) (s : state) :=
    (fun sh => filename (textureMap (material (primitive sh)))) <$> shapes s !! a in
  exists data s sun moon s',
    generateSolarSystem cat dist s0 = Ok (data, s) /\
    map (fun a => texture a s) data =
      map Some (texture_fname (Sun cat)
                :: map texture_fname (Planets cat) ++ [texture_fname (Moon cat)]) /\
    Forall (fun a => exists sh, shapes s !! a = Some sh /\
                       type (primitive sh) = PRIMITIVE_SPHERE /\
                       ctm sh = mat4_1) data /\
    planets s !! n0 = Some (Some sun) /\
    data !! 0%nat = Some (renderHandle sun) /\
    (forall i r, Planets cat !! i = Some r ->
       exists p, planets s !! (n0 + S i)%nat = Some (Some p) /\
                 data !! S i = Some (renderHandle p)) /\
    planets s !! (n0 + S C)%nat = Some (Some moon) /\
    data !! S C = Some (renderHandle moon) /\
    PlanetarySystem_destructor s = Ok (tt, s') /\
    shapes s' = shapes s /\
    Forall (fun a => is_Some (shapes s' !! a)) data.
Proof.
  intros HC C n0 texture.
  set (m0 := length (shapes s0)).
  assert (Hdata : seq m0 (C + 2) = m0 :: map (fun i => (m0 + S i)%nat) (seq 0 C) ++ [(m0 + S C)%nat]).
  { rewrite seq_two_more, map_offset_seq. do 3 f_equal; lia. }
  assert (Hsh : forall a, a ∈ seq m0 (C + 2) ->
            exists sh, shapes (built_state cat dist s0) !! a = Some sh /\
                       type (primitive sh) = PRIMITIVE_SPHERE /\ ctm sh = mat4_1).
  { intros a Ha. rewrite Hdata in Ha. unfold m0, C in Ha. cbn [built_state shapes].
    apply elem_of_cons in Ha as [->|Ha]; [|apply elem_of_app in Ha as [Ha|Ha]].
    - eexists. split; [apply built_shape_lookup_sun | split; reflexivity].
    - apply list_elem_of_fmap in Ha as (i & -> & Hi). apply elem_of_seq in Hi.
      destruct (lookup_lt_is_Some_2 (Planets cat) i ltac:(lia)) as [r Hr].
      eexists. split; [apply (built_shape_lookup_orbiting _ _ _ _ Hr) | split; reflexivity].
    - apply list_elem_of_singleton in Ha as ->.
      eexists. split; [apply built_shape_lookup_moon | split; reflexivity]. }
  exists (seq m0 (C + 2)), (built_state cat dist s0),
         (sun_node cat n0 m0), (moon_node cat dist n0 m0),
         (release_all (postorder (built_tree n0 C)) (built_state cat dist s0)).
  split; [apply build_ok, HC|].
  split.
  { rewrite Hdata. unfold texture, m0, C. cbn [map built_state shapes].
    rewrite built_shape_lookup_sun. cbn [fmap option_fmap option_map]. f_equal.
    rewrite !map_app, !map_map. cbn [map]. f_equal.
    - (* the orbiting bodies *)
      apply list_eq. intros i. rewrite !list_lookup_fmap.
      destruct (decide (i < C)) as [Hi|Hi].
      + destruct (lookup_lt_is_Some_2 (Planets cat) i Hi) as [r Hr].
        rewrite lookup_seq_lt, Hr by exact Hi. cbn [fmap option_fmap option_map Nat.add].
        rewrite (built_shape_lookup_orbiting _ _ _ _ Hr). reflexivity.
      + rewrite lookup_seq_ge by lia.
        rewrite (lookup_ge_None_2 (Planets cat) i) by (unfold C in Hi; lia). reflexivity.
    - rewrite built_shape_lookup_moon. reflexivity. }
  split; [apply Forall_forall, Hsh|].
  split; [apply built_lookup_sun|].
  split; [rewrite Hdata; reflexivity|].
  split.
  { intros i r Hr. eexists. split; [apply (built_lookup_orbiting _ _ _ _ _ _ Hr)|].
    cbn [orbiting_node planet_of with_children with_parent Planet_new renderHandle].
    rewrite lookup_seq_lt.
    - f_equal. fold m0. lia.
    - apply lookup_lt_Some in Hr. fold C in Hr. lia. }
  split; [apply built_lookup_moon|].
  split.
  { cbn [moon_node with_parent Planet_new renderHandle].
    rewrite lookup_seq_lt by lia. f_equal. fold m0 C. lia. }
  split; [apply destructor_built, HC|].
  split; [reflexivity|].
  apply Forall_forall. intros a Ha. cbn [release_all shapes].
  destruct (Hsh a Ha) as (sh & Hl & _). rewrite Hl. eexists; reflexivity.
Qed.

(** C9.  Teardown of a built tree succeeds, so no block is released twice;
    the blocks it releases are exactly the [1 + C + 1] nodes of the tree,
    each once, in post-order: the children of a node are released before the
    node, the root last.  Afterwards every node of the tree is released and
    the blocks that existed before the build are untouched. *)
Theorem teardown_releases_each_node_once (cat : Catalog) (dist : nat -> float)
    (s0 : state) :
  3 <= length (Planets cat) ->
  let C := length (Planets cat) in
  let n0 := length (planets s0) in
  exists data s s',
    generateSolarSystem cat dist s0 = Ok (data, s) /\
    PlanetarySystem_destructor s = Ok (tt, s') /\
    released s' = released s ++ postorder (built_tree n0 C) /\
    postorder (built_tree n0 C) =
      [n0 + 1; n0 + 2; n0 + S C; n0 + 3]%nat ++ seq (n0 + 4) (C - 3) ++ [n0] /\
    NoDup (postorder (built_tree n0 C)) /\
    (forall a, a ∈ postorder (built_tree n0 C) <-> n0 <= a < n0 + (1 + C + 1)) /\
    (forall a, n0 <= a < n0 + (1 + C + 1) -> planets s' !! a = Some None) /\
    (forall a, a < n0 -> planets s' !! a = planets s0 !! a) /\
    (forall a p c,
       a ∈ preorder (built_tree n0 C) ->
       planets s !! a = Some (Some p) ->
       c ∈ getChildren p ->
       before c a (postorder (built_tree n0 C))).
Proof.
  intros HC C n0.
  exists (seq (length (shapes s0)) (C + 2)), (built_state cat dist s0),
         (release_all (postorder (built_tree n0 C)) (built_state cat dist s0)).
  assert (Hmem : forall a, a ∈ postorder (built_tree n0 C) <-> n0 <= a < n0 + (1 + C + 1)).
  { intros a. rewrite postorder_preorder, elem_of_preorder_built by exact HC. lia. }
  split; [apply build_ok, HC|].
  split; [apply destructor_built, HC|].
  split; [reflexivity|].
  split; [apply postorder_built, HC|].
  split; [rewrite postorder_preorder; apply NoDup_preorder_built, HC|].
  split; [exact Hmem|].
  split; [|split].
  - intros a Ha. cbn [release_all planets built_state].
    apply lookup_release_in; [apply Hmem, Ha|].
    rewrite length_app, length_built_planets. fold n0 C. lia.
  - intros a Ha. cbn [release_all planets built_state].
    rewrite lookup_release_notin by (rewrite Hmem; lia).
    apply lookup_app_l. exact Ha.
  - intros a p c Ha Hl Hc.
    apply (children_released_first _ _ None a p c (built_state_tree cat dist s0 HC) Ha Hl Hc).
Qed.

(** C10.  Destroying a [PlanetarySystem] whose root is still null releases
    nothing and leaves the whole state as it was: the destructor tests the
    root before it recurses. *)
Theorem destructor_before_build (s : state) :
  m_root s = None -> PlanetarySystem_destructor s = Ok (tt, s).
Proof. intros Hroot. unfold PlanetarySystem_destructor. rewrite Hroot. reflexivity. Qed.

(* ----------------------------------------------------------------- *)
(** *** Further properties of the code, for every float arithmetic *)

Lemma length_built_shapes (cat : Catalog) :
  length (built_shapes cat) = (length (Planets cat) + 2)%nat.
Proof.
  unfold built_shapes. cbn [length]. rewrite length_app, length_map. cbn. lia.
Qed.

Lemma built_node_cases (cat : Catalog) dist (s0 : state) a p :
  length (planets s0) <= a ->
  planets (built_state cat dist s0) !! a = Some (Some p) ->
  (a = length (planets s0) /\
   p = sun_node cat (length (planets s0)) (length (shapes s0))) \/
  (exists i r, a = (length (planets s0) + S i)%nat /\ Planets cat !! i = Some r /\
     p = orbiting_node cat dist (length (planets s0)) (length (shapes s0)) i r) \/
  (a = (length (planets s0) + S (length (Planets cat)))%nat /\
   p = moon_node cat dist (length (planets s0)) (length (shapes s0))).
Proof.
  intros Hge Hl. cbn [built_state planets] in Hl.
  assert (Hlt : a < length (planets s0) + (length (Planets cat) + 2)).
  { apply lookup_lt_Some in Hl. rewrite length_app, length_built_planets in Hl. exact Hl. }
  destruct (decide (a = length (planets s0))) as [->|Hne].
  - left. rewrite built_lookup_sun in Hl. injection Hl as <-. split; reflexivity.
  - destruct (decide (a = (length (planets s0) + S (length (Planets cat)))%nat)) as [->|Hne'].
    + right; right. rewrite built_lookup_moon in Hl. injection Hl as <-. split; reflexivity.
    + right; left.
      assert (Hi : exists i, a = (length (planets s0) + S i)%nat /\ i < length (Planets cat)).
      { exists (a - length (planets s0) - 1)%nat. lia. }
      destruct Hi as (i & -> & Hi).
      destruct (lookup_lt_is_Some_2 (Planets cat) i Hi) as [r Hr].
      rewrite (built_lookup_orbiting _ _ _ _ _ _ Hr) in Hl. injection Hl as <-.
      exists i, r. repeat split. exact Hr.
Qed.

Lemma built_live (cat : Catalog) dist (s0 : state) a :
  length (planets s0) <= a < length (planets s0) + (length (Planets cat) + 2) ->
  exists p, planets (built_state cat dist s0) !! a = Some (Some p).
Proof.
  intros Ha. cbn [built_state planets].
  destruct (decide (a = length (planets s0))) as [->|Hne].
  - eexists. apply built_lookup_sun.
  - destruct (decide (a = (length (planets s0) + S (length (Planets cat)))%nat)) as [->|Hne'].
    + eexists. apply built_lookup_moon.
    + assert (Hi : exists i, a = (length (planets s0) + S i)%nat /\ i < length (Planets cat)).
      { exists (a - length (planets s0) - 1)%nat. lia. }
      destruct Hi as (i & -> & Hi).
      destruct (lookup_lt_is_Some_2 (Planets cat) i Hi) as [r Hr].
      eexists. apply (built_lookup_orbiting _ _ _ _ _ _ Hr).
Qed.

Lemma tree_at_live t : forall (h : list (option Planet)) par a,
  tree_at h par t -> a ∈ preorder t -> exists p, h !! a = Some (Some p).
Proof.
  induction t as [r ks IH] using tree_ind_forall. intros h par a Ht Ha.
  inversion Ht as [par' a' p ks' Hl Hp Hc Hks]; subst.
  cbn [preorder] in Ha. apply elem_of_cons in Ha as [->|Ha].
  - exists p. exact Hl.
  - apply elem_of_flat_map in Ha as (k & Hk & Hak).
    rewrite Forall_forall in IH, Hks. exact (IH k Hk h (Some r) a (Hks k Hk) Hak).
Qed.

Lemma length_release l : forall (h : list (option Planet)),
  length (foldl (fun h a => <[a := None]> h) h l) = length h.
Proof.
  induction l as [|x l IH]; intros h; [reflexivity|].
  cbn [foldl]. rewrite IH. apply length_insert.
Qed.

(** X1.  The build succeeds exactly when the catalog has at least three
    orbiting-body records: the hierarchy is set up through
    [sun_children[2]], which is out of range for a shorter catalog, and
    nothing else in the build can go wrong, whatever the heap, the records'
    values and the random draws. *)
Theorem build_succeeds_iff_three_orbiting_bodies (cat : Catalog)
    (dist : nat -> float) (s0 : state) :
  ((exists data s, generateSolarSystem cat dist s0 = Ok (data, s)) <->
   3 <= length (Planets cat)) /\
  (generateSolarSystem cat dist s0 = Undefined <-> length (Planets cat) < 3).
Proof.
  destruct (decide (3 <= length (Planets cat))) as [HC|HC].
  - pose proof (build_ok cat dist s0 HC) as Hok. split; split.
    + intros _. exact HC.
    + intros _. eexists _, _. exact Hok.
    + intros Hu. rewrite Hok in Hu. discriminate.
    + intros Hlt. lia.
  - pose proof (generateSolarSystem_too_few cat dist s0 ltac:(lia)) as Hu. split; split.
    + intros (data & s & Hok). rewrite Hu in Hok. discriminate.
    + intros HC'. contradiction.
    + intros _. lia.
    + intros _. exact Hu.
Qed.

(** X2.  The build only appends: it allocates [C + 2] node blocks and
    [C + 2] payload blocks after the existing ones, leaves every block that
    existed before as it was and releases nothing.  The handles it returns
    are the new payload blocks, in allocation order and without repetition,
    and the [k]-th new node refers to the [k]-th new payload. *)
Theorem build_appends_and_keeps_the_rest (cat : Catalog) (dist : nat -> float)
    (s0 : state) :
  3 <= length (Planets cat) ->
  exists data s,
    generateSolarSystem cat dist s0 = Ok (data, s) /\
    length (planets s) = (length (planets s0) + (length (Planets cat) + 2))%nat /\
    length (shapes s) = (length (shapes s0) + (length (Planets cat) + 2))%nat /\
    (forall a, a < length (planets s0) -> planets s !! a = planets s0 !! a) /\
    (forall a, a < length (shapes s0) -> shapes s !! a = shapes s0 !! a) /\
    released s = released s0 /\
    data = seq (length (shapes s0)) (length (Planets cat) + 2) /\
    NoDup data /\
    (forall a, length (planets s0) <= a < length (planets s) ->
       exists p, planets s !! a = Some (Some p) /\
                 renderHandle p = (length (shapes s0) + (a - length (planets s0)))%nat).
Proof.
  intros HC.
  assert (Hlen : length (planets (built_state cat dist s0)) =
                 (length (planets s0) + (length (Planets cat) + 2))%nat).
  { cbn [built_state planets]. rewrite length_app, length_built_planets. reflexivity. }
  exists (seq (length (shapes s0)) (length (Planets cat) + 2)), (built_state cat dist s0).
  split; [apply build_ok, HC|].
  split; [exact Hlen|].
  split. { cbn [built_state shapes]. rewrite length_app, length_built_shapes. reflexivity. }
  split. { intros a Ha. cbn [built_state planets]. apply lookup_app_l, Ha. }
  split. { intros a Ha. cbn [built_state shapes]. apply lookup_app_l, Ha. }
  split; [reflexivity|].
  split; [reflexivity|].
  split; [apply NoDup_seq|].
  intros a Ha. rewrite Hlen in Ha.
  destruct (built_live cat dist s0 a Ha) as [p Hp].
  exists p. split; [exact Hp|].
  destruct (built_node_cases cat dist s0 a p ltac:(lia) Hp)
    as [[-> ->]|[(i & r & -> & Hr & ->)|[-> ->]]]; cbn; lia.
Qed.

(** X3.  Building twice leaks the first tree: the second build overwrites
    [m_root] without releasing anything, so the destructor afterwards
    releases the nodes of the second tree only, and every node of the first
    tree is still allocated, unchanged. *)
Theorem rebuilding_leaks_the_first_tree (cat cat' : Catalog)
    (dist dist' : nat -> float) (s0 : state) :
  3 <= length (Planets cat) ->
  3 <= length (Planets cat') ->
  exists d1 s1 d2 s2 s3,
    generateSolarSystem cat dist s0 = Ok (d1, s1) /\
    generateSolarSystem cat' dist' s1 = Ok (d2, s2) /\
    m_root s1 = Some (length (planets s0)) /\
    m_root s2 = Some (length (planets s1)) /\
    PlanetarySystem_destructor s2 = Ok (tt, s3) /\
    (forall a, length (planets s0) <= a < length (planets s1) ->
       exists p, planets s1 !! a = Some (Some p) /\ planets s3 !! a = Some (Some p)) /\
    (forall a, length (planets s1) <= a < length (planets s2) ->
       planets s3 !! a = Some None).
Proof.
  intros HC HC'.
  set (s1 := built_state cat dist s0).
  set (s2 := built_state cat' dist' s1).
  set (t2 := built_tree (length (planets s1)) (length (Planets cat'))).
  assert (Hlen1 : length (planets s1) =
                  (length (planets s0) + (length (Planets cat) + 2))%nat).
  { unfold s1. cbn [built_state planets]. rewrite length_app, length_built_planets.
    reflexivity. }
  assert (Hlen2 : length (planets s2) =
                  (length (planets s1) + (length (Planets cat') + 2))%nat).
  { unfold s2. cbn [built_state planets]. rewrite length_app, length_built_planets.
    reflexivity. }
  assert (Hmem : forall a, a ∈ postorder t2 <->
                   length (planets s1) <= a <= length (planets s1) + S (length (Planets cat'))).
  { intros a. unfold t2. rewrite postorder_preorder.
    apply elem_of_preorder_built, HC'. }
  exists (seq (length (shapes s0)) (length (Planets cat) + 2)), s1,
         (seq (length (shapes s1)) (length (Planets cat') + 2)), s2,
         (release_all (postorder t2) s2).
  split; [apply build_ok, HC|].
  split; [apply build_ok, HC'|].
  split; [reflexivity|]. split; [reflexivity|].
  split; [apply destructor_built, HC'|].
  split.
  - intros a Ha.
    destruct (built_live cat dist s0 a ltac:(lia)) as [p Hp]. fold s1 in Hp.
    exists p. split; [exact Hp|].
    cbn [release_all planets].
    rewrite lookup_release_notin by (rewrite Hmem; lia).
    unfold s2. cbn [built_state planets]. apply lookup_app_l_Some, Hp.
  - intros a Ha. cbn [release_all planets].
    apply lookup_release_in; [apply Hmem; lia | lia].
Qed.

(** X4.  The two nodes the build does not make from a [Planets] record.
    The central body gets the log-scaled diameter of [Sun], zero orbital
    rate, self-spin rate, phase and orbit radius, and the vertical axis.
    The satellite is not log-scaled: its scale is [Moon]'s diameter divided
    by 20000 and its orbit radius [Moon]'s orbital radius times 1.5; its
    rates and axis are computed as for an orbiting body. *)
Theorem root_and_satellite_parameters (cat : Catalog) (dist : nat -> float)
    (s0 : state) :
  3 <= length (Planets cat) ->
  exists data s sun moon,
    generateSolarSystem cat dist s0 = Ok (data, s) /\
    planets s !! length (planets s0) = Some (Some sun) /\
    scale_ sun = scaleDiameter (diameter (Sun cat)) /\
    orbitalRate sun = #0 /\ selfSpinRate sun = #0 /\ phase sun = #0 /\
    orbitRadius sun = #0 /\ axis sun = Vec3 #0 #1 #0 /\
    planets s !! (length (planets s0) + S (length (Planets cat)))%nat = Some (Some moon) /\
    scale_ moon = diameter (Moon cat) / #20000 /\
    orbitalRate moon = scaleVelocity (#1 / orbital_period (Moon cat)) /\
    selfSpinRate moon = rotational_velocity (Moon cat) / diameter (Moon cat) /\
    orbitRadius moon = orbital_radius (Moon cat) * #1.5 /\
    axis moon = computeAxis (orbital_inclination (Moon cat)).
Proof.
  intros HC.
  exists (seq (length (shapes s0)) (length (Planets cat) + 2)), (built_state cat dist s0),
         (sun_node cat (length (planets s0)) (length (shapes s0))),
         (moon_node cat dist (length (planets s0)) (length (shapes s0))).
  split; [apply build_ok, HC|].
  split; [apply built_lookup_sun|].
  do 6 (split; [reflexivity|]).
  split; [apply built_lookup_moon|].
  repeat split.
Qed.

(** X5.  The build makes [C + 1] draws from the random source and uses each
    once: the node of the [i]-th orbiting-body record starts at the [i]-th
    draw, the satellite at the draw after the last orbiting body. *)
Theorem initial_phases_follow_the_draws (cat : Catalog) (dist : nat -> float)
    (s0 : state) :
  3 <= length (Planets cat) ->
  exists data s,
    generateSolarSystem cat dist s0 = Ok (data, s) /\
    (forall i, i < length (Planets cat) ->
       exists p, planets s !! (length (planets s0) + S i)%nat = Some (Some p) /\
                 phase p = dist i) /\
    (exists moon,
       planets s !! (length (planets s0) + S (length (Planets cat)))%nat
         = Some (Some moon) /\
       phase moon = dist (length (Planets cat))).
Proof.
  intros HC.
  exists (seq (length (shapes s0)) (length (Planets cat) + 2)), (built_state cat dist s0).
  split; [apply build_ok, HC|].
  split.
  - intros i Hi. destruct (lookup_lt_is_Some_2 (Planets cat) i Hi) as [r Hr].
    eexists. split; [apply (built_lookup_orbiting _ _ _ _ _ _ Hr)|]. reflexivity.
  - eexists. split; [apply built_lookup_moon | reflexivity].
Qed.

(** X6.  The material of the returned payloads: every one has diffuse colour
    (1, 1, 1, 0) and a used texture map repeated once in each direction; the
    first payload (the central body) has blend 1, every later one blend
    0.5. *)
Theorem payload_materials (cat : Catalog) (dist : nat -> float) (s0 : state) :
  3 <= length (Planets cat) ->
  exists data s,
    generateSolarSystem cat dist s0 = Ok (data, s) /\
    forall k a, data !! k = Some a ->
      exists sh, shapes s !! a = Some sh /\
        cDiffuse (material (primitive sh)) = Vec4 #1 #1 #1 #0 /\
        isUsed (textureMap (material (primitive sh))) = true /\
        repeatU (textureMap (material (primitive sh))) = #1 /\
        repeatV (textureMap (material (primitive sh))) = #1 /\
        blend (material (primitive sh)) = (if decide (k = 0%nat) then #1 else #0.5).
Proof.
  intros HC.
  exists (seq (length (shapes s0)) (length (Planets cat) + 2)), (built_state cat dist s0).
  split; [apply build_ok, HC|].
  intros k a Hk. apply lookup_seq in Hk as [-> Hk]. cbn [built_state shapes].
  destruct k as [|k].
  - rewrite Nat.add_0_r. eexists. split; [apply built_shape_lookup_sun|]. repeat split.
  - destruct (decide (k = length (Planets cat))) as [->|Hne].
    + eexists. split; [apply built_shape_lookup_moon|]. repeat split.
    + destruct (lookup_lt_is_Some_2 (Planets cat) k ltac:(lia)) as [r Hr].
      eexists. split; [apply (built_shape_lookup_orbiting _ _ _ _ Hr)|]. repeat split.
Qed.

(** X7.  In a built tree the parent pointers and the children vectors agree:
    for any two nodes [a] and [c] of the tree, [c] is in the children of [a]
    exactly when the parent of [c] is [a]. *)
Theorem parents_and_children_agree (cat : Catalog) (dist : nat -> float) (s0 : state) :
  3 <= length (Planets cat) ->
  exists data s,
    generateSolarSystem cat dist s0 = Ok (data, s) /\
    forall a c p q,
      length (planets s0) <= a -> length (planets s0) <= c ->
      planets s !! a = Some (Some p) ->
      planets s !! c = Some (Some q) ->
      (c ∈ getChildren p <-> getParent q = Some a).
Proof.
  intros HC.
  exists (seq (length (shapes s0)) (length (Planets cat) + 2)), (built_state cat dist s0).
  split; [apply build_ok, HC|].
  intros a c p q Ha Hc Hp Hq.
  destruct (built_node_cases cat dist s0 a p Ha Hp)
    as [[-> ->]|[(i & r & -> & Hr & ->)|[-> ->]]];
  destruct (built_node_cases cat dist s0 c q Hc Hq)
    as [[-> ->]|[(j & r' & -> & Hr' & ->)|[-> ->]]];
  try apply lookup_lt_Some in Hr; try apply lookup_lt_Some in Hr';
  cbn [sun_node orbiting_node moon_node planet_of with_children with_parent Planet_new
       getChildren getParent children parent];
  try case_decide;
  rewrite ?elem_of_seq, ?elem_of_nil, ?list_elem_of_singleton;
  split; intros Hx; try discriminate; try lia; try (f_equal; lia);
  try (injection Hx; lia).
Qed.

(** X8.  [deletePlanet] on any well-formed subtree (any shape, any position
    in the heap, with or without a parent): it returns, releases the nodes
    of the subtree in post-order, each once, and touches nothing else: the
    blocks outside the subtree, the payloads and the root pointer stay as
    they were. *)
Theorem deletePlanet_releases_exactly_the_subtree (fuel : nat) (t : tree)
    (par : option addr) (s : state) :
  tree_at (planets s) par t ->
  NoDup (preorder t) ->
  height t <= fuel ->
  exists s',
    deletePlanet fuel (root t) s = Ok (tt, s') /\
    released s' = released s ++ postorder t /\
    length (planets s') = length (planets s) /\
    (forall a, a ∈ preorder t -> planets s' !! a = Some None) /\
    (forall a, a ∉ preorder t -> planets s' !! a = planets s !! a) /\
    shapes s' = shapes s /\
    m_root s' = m_root s.
Proof.
  intros Ht Hnd Hh. exists (release_all (postorder t) s).
  split; [apply (deletePlanet_tree fuel t par s Ht Hnd Hh)|].
  cbn [release_all planets shapes released m_root].
  split; [reflexivity|]. split; [apply length_release|].
  split; [|split; [|split; reflexivity]].
  - intros a Ha. destruct (tree_at_live t _ par a Ht Ha) as [p Hp].
    apply lookup_release_in; [rewrite postorder_preorder; exact Ha|].
    eapply lookup_lt_Some, Hp.
  - intros a Ha. apply lookup_release_notin. rewrite postorder_preorder. exact Ha.
Qed.

(** X9.  [deletePlanet] clears no pointer: after it has released a subtree,
    calling it again on the same node reads a released block, which is
    undefined behaviour. *)
Theorem deletePlanet_twice_is_undefined (fuel fuel' : nat) (t : tree)
    (par : option addr) (s : state) :
  tree_at (planets s) par t ->
  NoDup (preorder t) ->
  height t <= fuel ->
  exists s',
    deletePlanet fuel (root t) s = Ok (tt, s') /\
    deletePlanet (S fuel') (root t) s' = Undefined.
Proof.
  intros Ht Hnd Hh. exists (release_all (postorder t) s).
  split; [apply (deletePlanet_tree fuel t par s Ht Hnd Hh)|].
  assert (Hroot : root t ∈ preorder t) by (destruct t; cbn; apply list_elem_of_here).
  destruct (tree_at_live t _ par (root t) Ht Hroot) as [p Hp].
  cbn [deletePlanet]. unfold bind, load. cbn [release_all planets].
  rewrite lookup_release_in; [reflexivity | |].
  - rewrite postorder_preorder. exact Hroot.
  - eapply lookup_lt_Some, Hp.
Qed.

Lemma is_locus_functional (h : list (option Planet)) a m m' :
  is_locus getTranslateMat getOrientMat h a m ->
  is_locus getTranslateMat getOrientMat h a m' -> m = m'.
Proof.
  intros (node & pa & par & Hn & Hp & Hpa & ->) (node' & pa' & par' & Hn' & Hp' & Hpa' & ->).
  rewrite Hn in Hn'. injection Hn' as <-.
  rewrite Hp in Hp'. injection Hp' as <-.
  rewrite Hpa in Hpa'. injection Hpa' as <-. reflexivity.
Qed.

Lemma loci_functional (h : list (option Planet)) l : forall out out',
  Forall2 (is_locus getTranslateMat getOrientMat h) l out ->
  Forall2 (is_locus getTranslateMat getOrientMat h) l out' -> out = out'.
Proof.
  induction l as [|a l IH]; intros out out' H H'.
  - apply Forall2_nil_inv_l in H, H'. congruence.
  - apply Forall2_cons_inv_l in H as (m & o & Hm & Ho & ->).
    apply Forall2_cons_inv_l in H' as (m' & o' & Hm' & Ho' & ->).
    f_equal; [exact (is_locus_functional h a m m' Hm Hm') | exact (IH o o' Ho Ho')].
Qed.

(** X10.  [getOrbitCtmsHelper] on any well-formed subtree: it appends to the
    vector it is given, keeping what is already there, and changes nothing
    in the heap; what it appends does not depend on the vector.  Started at
    a node that has a (live) parent it appends one transform per node of the
    subtree, in pre-order; started at a node without a parent it skips that
    node. *)
Theorem getOrbitCtmsHelper_appends_the_subtree (fuel : nat) (t : tree)
    (par : option addr) (s : state) :
  tree_at (planets s) par t ->
  height t <= fuel ->
  (forall pa, par = Some pa -> exists p, planets s !! pa = Some (Some p)) ->
  exists out,
    (forall ctms,
       getOrbitCtmsHelper getTranslateMat getOrientMat fuel ctms (root t) s =
         Ok (ctms ++ out, s)) /\
    length out =
      (length (preorder t) - match par with Some _ => 0 | None => 1 end)%nat /\
    Forall2 (is_locus getTranslateMat getOrientMat (planets s))
            (match par with Some _ => preorder t | None => tl (preorder t) end) out.
Proof.
  intros Ht Hh Hpar.
  destruct (getOrbitCtmsHelper_tree fuel t par [] s Ht Hh Hpar) as (out & Hrun & HF).
  exists out. split; [|split].
  - intros ctms.
    destruct (getOrbitCtmsHelper_tree fuel t par ctms s Ht Hh Hpar) as (out' & Hrun' & HF').
    rewrite Hrun'. rewrite (loci_functional _ _ _ _ HF HF'). reflexivity.
  - rewrite <- (Forall2_length _ _ _ HF). destruct par, t; cbn; lia.
  - exact HF.
Qed.

(** X11.  Unlike the destructor, [update] and [getOrbitCtms] do not test the
    root: when the root is null, or points to a node that was released (as
    [deletePlanet] leaves it), both read through it, which is undefined
    behaviour, whatever the time step and the rest of the heap. *)
Theorem update_and_getOrbitCtms_need_a_root (s : state) (deltaTime : float) :
  m_root s = None \/ (exists a, m_root s = Some a /\ planets s !! a = Some None) ->
  update deltaTime s = Undefined /\
  getOrbitCtms getTranslateMat getOrientMat s = Undefined.
Proof.
  unfold update, getOrbitCtms. intros [Hroot|(a & Hroot & Ha)]; rewrite Hroot.
  - split; reflexivity.
  - pose proof (lookup_lt_Some _ _ _ Ha) as Hlt.
    destruct (length (planets s)) as [|fuel]; [lia|].
    cbn [updateCTM getOrbitCtmsHelper]. unfold bind, load. rewrite Ha.
    split; reflexivity.
Qed.

(* ----------------------------------------------------------------- *)
(** *** Updates that change nothing, and the derived transforms of a built
    tree *)

Lemma advance_node_fixed dt (p : Planet) :
  phase p + orbitalRate p * dt = phase p ->
  spinAngle p + selfSpinRate p * dt = spinAngle p ->
  advance_node dt p = p.
Proof.
  destruct p. unfold advance_node. cbn. intros -> ->. reflexivity.
Qed.

Lemma advance_all_fixed dt l : forall h : list (option Planet),
  (forall x p, x ∈ l -> h !! x = Some (Some p) -> advance_node dt p = p) ->
  advance_all dt l h = h.
Proof.
  induction l as [|x l IH]; intros h Hfix; [reflexivity|].
  rewrite advance_all_cons.
  assert (Halter : alter (fmap (advance_node dt)) x h = h).
  { apply list_eq. intros i. destruct (decide (i = x)) as [->|Hne].
    - rewrite list_lookup_alter_eq. destruct (h !! x) as [[p|]|] eqn:Hx; cbn; [|reflexivity..].
      rewrite (Hfix x p (list_elem_of_here _ _) Hx). reflexivity.
    - rewrite list_lookup_alter_ne by congruence. reflexivity. }
  rewrite Halter. apply IH. intros y p Hy. apply Hfix, list_elem_of_further, Hy.
Qed.

Lemma update_fixed dt t (s : state) :
  m_root s = Some (root t) ->
  tree_at (planets s) None t ->
  height t <= length (planets s) ->
  (forall x p, x ∈ preorder t -> planets s !! x = Some (Some p) -> advance_node dt p = p) ->
  update dt s = Ok (tt, s).
Proof.
  intros Hroot Ht Hh Hfix.
  rewrite (update_tree dt t s Hroot Ht Hh), (advance_all_fixed dt _ _ Hfix).
  destruct s. reflexivity.
Qed.

Context (orbitTranslation : vec3 float -> float -> float -> mat4 float).

Lemma effectiveTransform_sun cat dist (h : list (option Planet)) m0 fuel :
  effectiveTransform orbitTranslation (S fuel)
    (h ++ built_planets cat dist (length h) m0) (length h) =
  Some (localTransform orbitTranslation (sun_node cat (length h) m0)).
Proof. cbn [effectiveTransform]. rewrite built_lookup_sun. reflexivity. Qed.

Lemma effectiveTransform_orbiting cat dist (h : list (option Planet)) m0 fuel i r :
  Planets cat !! i = Some r ->
  effectiveTransform orbitTranslation (S (S fuel))
    (h ++ built_planets cat dist (length h) m0) (length h + S i)%nat =
  Some (mat4_mul (localTransform orbitTranslation (sun_node cat (length h) m0))
                 (localTransform orbitTranslation
                    (orbiting_node cat dist (length h) m0 i r))).
Proof.
  intros Hr. cbn [effectiveTransform].
  rewrite (built_lookup_orbiting _ _ _ _ _ _ Hr).
  cbn [orbiting_node planet_of with_children with_parent getParent parent].
  rewrite built_lookup_sun. reflexivity.
Qed.

Lemma effectiveTransform_moon cat dist (h : list (option Planet)) m0 fuel r :
  Planets cat !! 2%nat = Some r ->
  effectiveTransform orbitTranslation (S (S (S fuel)))
    (h ++ built_planets cat dist (length h) m0)
    (length h + S (length (Planets cat)))%nat =
  Some (mat4_mul
          (mat4_mul (localTransform orbitTranslation (sun_node cat (length h) m0))
                    (localTransform orbitTranslation
                       (orbiting_node cat dist (length h) m0 2 r)))
          (localTransform orbitTranslation (moon_node cat dist (length h) m0))).
Proof.
  intros Hr.
  change (effectiveTransform orbitTranslation (S (S (S fuel))) ?h' ?a)
    with (match h' !! a with
          | Some (Some p) =>
              match getParent p with
              | None => Some (localTransform orbitTranslation p)
              | Some pa =>
                  match effectiveTransform orbitTranslation (S (S fuel)) h' pa with
                  | Some m => Some (mat4_mul m (localTransform orbitTranslation p))
                  | None => None
                  end
              end
          | _ => None
          end).
  rewrite built_lookup_moon.
  cbn [moon_node with_parent getParent parent].
  rewrite (effectiveTransform_orbiting cat dist h m0 fuel 2 r Hr). reflexivity.
Qed.

Lemma derivedTransform_built cat dist (s0 : state) x :
  3 <= length (Planets cat) ->
  length (planets s0) <= x <= length (planets s0) + S (length (Planets cat)) ->
  exists p m,
    planets (built_state cat dist s0) !! x = Some (Some p) /\
    derivedTransform orbitTranslation (built_state cat dist s0) x = Some m.
Proof.
  intros HC Hx.
  destruct (lookup_lt_is_Some_2 (Planets cat) 2 ltac:(lia)) as [r2 Hr2].
  unfold derivedTransform. cbn [built_state planets].
  rewrite length_app, length_built_planets.
  replace (length (planets s0) + (length (Planets cat) + 2))%nat
    with (S (S (S (length (planets s0) + (length (Planets cat) - 1)))))%nat by lia.
  destruct (decide (x = length (planets s0))) as [->|Hne].
  - eexists _, _. split; [apply built_lookup_sun | apply effectiveTransform_sun].
  - destruct (decide (x = (length (planets s0) + S (length (Planets cat)))%nat))
      as [->|Hne'].
    + eexists _, _.
      split; [apply built_lookup_moon | apply (effectiveTransform_moon _ _ _ _ _ _ Hr2)].
    + assert (Hi : exists i, x = (length (planets s0) + S i)%nat /\
                             i < length (Planets cat)).
      { exists (x - length (planets s0) - 1)%nat. lia. }
      destruct Hi as (i & -> & Hi).
      destruct (lookup_lt_is_Some_2 (Planets cat) i Hi) as [r Hr].
      eexists _, _.
      split; [apply (built_lookup_orbiting _ _ _ _ _ _ Hr)
             | apply (effectiveTransform_orbiting _ _ _ _ _ _ _ Hr)].
Qed.

Lemma same_observable_state_built cat dist (s0 : state) :
  3 <= length (Planets cat) ->
  same_observable_state orbitTranslation
    (preorder (built_tree (length (planets s0)) (length (Planets cat))))
    (built_state cat dist s0) (built_state cat dist s0).
Proof.
  intros HC x Hx. apply elem_of_preorder_built in Hx; [|exact HC].
  destruct (derivedTransform_built cat dist s0 x HC Hx) as (p & m & Hp & Hm).
  exists p, p, m. repeat split; assumption.
Qed.

End Theory.

(* ================================================================= *)
(** ** Properties in binary32 arithmetic

    The operations are those of [binary32_arith]; [log10f], [sinf] and
    [cosf] stand for what the platform's library computes. *)

Section Binary32.
Context (log10f sinf cosf : spec_float -> spec_float).
Abbreviation b32 := (binary32_arith log10f sinf cosf).

Lemma binary32_catalog_has_eight : 3 <= length (Planets (@solar_system _ b32)).
Proof. cbn [solar_system Planets length]. lia. Qed.

Lemma binary32_add_zero (x : spec_float) :
  x <> S754_zero true -> SFadd 24 128 x (S754_zero false) = x.
Proof. destruct x as [[|]| | |]; intros Hx; try reflexivity. contradiction. Qed.

Lemma binary32_rates_times_zero :
  Forall (fun r : @SolarSystemPlanet spec_float =>
            SFmul 24 128
              (@scaleVelocity _ b32 (SFdiv 24 128 (binary32_lit 1) (orbital_period r)))
              (binary32_lit 0) = S754_zero false /\
            SFadd 24 128 (binary32_lit 0)
              (SFmul 24 128 (SFdiv 24 128 (rotational_velocity r) (diameter r))
                            (binary32_lit 0)) = binary32_lit 0)
         (Moon (@solar_system _ b32) :: Planets (@solar_system _ b32)).
Proof.
  cbn [solar_system Moon Planets].
  repeat (apply Forall_cons; split; [split; vm_compute; reflexivity|]).
  apply Forall_nil; exact I.
Qed.

Lemma binary32_shipped_node_fixed (dist : nat -> spec_float)
    (s0 : @state spec_float) x p :
  (forall k, dist k <> S754_zero true) ->
  length (planets s0) <= x ->
  planets (@built_state _ b32 (@solar_system _ b32) dist s0) !! x = Some (Some p) ->
  @advance_node _ b32 (binary32_lit 0) p = p.
Proof.
  intros Hd Hx Hp.
  pose proof binary32_rates_times_zero as Hall. rewrite Forall_cons in Hall.
  destruct Hall as [[Hmr Hms] Hall]. rewrite Forall_forall in Hall.
  apply (@advance_node_fixed _ b32).
  - destruct (@built_node_cases _ b32 (@solar_system _ b32) dist s0 x p Hx Hp)
      as [[-> ->]|[(i & r & -> & Hr & ->)|[-> ->]]].
    + vm_compute. reflexivity.
    + cbn [orbiting_node planet_of with_children with_parent Planet_new phase orbitalRate
           fadd fmul fdiv flit binary32_arith Nat.add].
      destruct (Hall r (list_elem_of_lookup_2 _ _ _ Hr)) as [-> _].
      apply binary32_add_zero, Hd.
    + cbn [moon_node with_parent Planet_new phase orbitalRate
           fadd fmul fdiv flit binary32_arith].
      rewrite Hmr. apply binary32_add_zero, Hd.
  - destruct (@built_node_cases _ b32 (@solar_system _ b32) dist s0 x p Hx Hp)
      as [[-> ->]|[(i & r & -> & Hr & ->)|[-> ->]]].
    + vm_compute. reflexivity.
    + cbn [orbiting_node planet_of with_children with_parent Planet_new spinAngle
           selfSpinRate fadd fmul fdiv flit binary32_arith].
      destruct (Hall r (list_elem_of_lookup_2 _ _ _ Hr)) as [_ ->]. reflexivity.
    + cbn [moon_node with_parent Planet_new spinAngle selfSpinRate
           fadd fmul fdiv flit binary32_arith].
      rewrite Hms. reflexivity.
Qed.

Lemma binary32_update_zero (dist : nat -> spec_float) (s0 : @state spec_float) :
  (forall k, dist k <> S754_zero true) ->
  @update _ b32 (binary32_lit 0) (@built_state _ b32 (@solar_system _ b32) dist s0) =
  Ok (tt, @built_state _ b32 (@solar_system _ b32) dist s0).
Proof.
  intros Hd.
  pose proof binary32_catalog_has_eight as HC.
  apply (@update_fixed _ b32 _
           (built_tree (length (planets s0)) (length (Planets (@solar_system _ b32))))).
  - reflexivity.
  - apply built_state_tree, HC.
  - rewrite height_built by exact HC. cbn [built_state planets].
    rewrite length_app, length_built_planets. lia.
  - intros x p Hx Hp. apply elem_of_preorder_built in Hx; [|exact HC].
    apply (binary32_shipped_node_fixed dist s0 x p Hd); [lia | exact Hp].
Qed.

End Binary32.

(** C4 fails as stated: in binary32 the phase is not additive.  On the tree
    built from the shipped catalog with every draw equal to 1, whatever
    [log10], [sin] and [cos] compute, the fifth orbiting body (Jupiter,
    orbital rate 10197314 * 2^-26) has phase 12212600 * 2^-23 after
    [update 1] followed by [update 2], and phase 12212601 * 2^-23 after
    [update (1 + 2)]; both time steps are non-negative and [1 + 2] is
    exactly 3. *)
Lemma additivity_fails_in_binary32 :
  SFleb (binary32_lit 0) (binary32_lit 1) = true /\
  SFleb (binary32_lit 0) (binary32_lit 2) = true /\
  SFadd 24 128 (binary32_lit 1) (binary32_lit 2) = binary32_lit 3 /\
  forall log10f sinf cosf : spec_float -> spec_float,
    exists data s sa sab s' p q,
      @generateSolarSystem _ (binary32_arith log10f sinf cosf)
        (@solar_system _ (binary32_arith log10f sinf cosf))
        (fun _ => binary32_lit 1) new_PlanetarySystem = Ok (data, s) /\
      @update _ (binary32_arith log10f sinf cosf) (binary32_lit 1) s = Ok (tt, sa) /\
      @update _ (binary32_arith log10f sinf cosf) (binary32_lit 2) sa = Ok (tt, sab) /\
      @update _ (binary32_arith log10f sinf cosf)
        (SFadd 24 128 (binary32_lit 1) (binary32_lit 2)) s = Ok (tt, s') /\
      planets sab !! 5%nat = Some (Some p) /\
      planets s' !! 5%nat = Some (Some q) /\
      phase p = S754_finite false 12212600 (-23) /\
      phase q = S754_finite false 12212601 (-23) /\
      phase p <> phase q.
Proof.
  split; [reflexivity|]. split; [reflexivity|]. split; [reflexivity|].
  intros log10f sinf cosf.
  pose proof (binary32_catalog_has_eight log10f sinf cosf) as HC.
  set (ops := binary32_arith log10f sinf cosf) in *.
  set (dist := fun _ : nat => binary32_lit 1).
  set (s := @built_state _ ops solar_system dist new_PlanetarySystem).
  set (t := built_tree 0 8).
  assert (Hroot : m_root s = Some (root t)) by reflexivity.
  assert (Ht : tree_at (planets s) None t)
    by apply (@built_state_tree _ ops solar_system dist new_PlanetarySystem HC).
  assert (Hh : height t <= length (planets s)).
  { unfold t, s. rewrite height_built by lia. cbn [built_state planets].
    rewrite length_app, length_built_planets. lia. }
  assert (Hnd : NoDup (preorder t)) by (apply NoDup_preorder_built; lia).
  assert (H5 : 5%nat ∈ preorder t) by (apply elem_of_preorder_built; lia).
  pose proof (@built_lookup_orbiting _ ops solar_system dist [] 0 4 _ eq_refl) as Hl.
  change (([] ++ built_planets solar_system dist (length []) 0) !! (length [] + 5)%nat)
    with (planets s !! 5%nat) in Hl.
  eexists _, s, _, _, _, _, _.
  split; [apply (@build_ok _ ops solar_system dist new_PlanetarySystem HC)|].
  split; [apply (@update_tree _ ops _ t s Hroot Ht Hh)|].
  split.
  { apply (@update_tree _ ops _ t); cbn [with_planets planets m_root].
    - exact Hroot.
    - apply tree_at_advance_all, Ht.
    - rewrite length_advance_all. exact Hh. }
  split; [apply (@update_tree _ ops _ t s Hroot Ht Hh)|].
  cbn [with_planets planets].
  split. { rewrite !lookup_advance_in, Hl by assumption. reflexivity. }
  split. { rewrite lookup_advance_in, Hl by assumption. reflexivity. }
  split; [vm_compute; reflexivity|]. split; [vm_compute; reflexivity|].
  intros Hpq. vm_compute in Hpq. discriminate.
Qed.

(* ================================================================= *)
(** ** Properties in exact arithmetic *)

Section Exact.
Local Open Scope R_scope.

Ltac exact_lits :=
  cbn [flit fadd fsub fmul fdiv fsqrt flog10 fsin fcos feqb exact_arith] in *;
  unfold Q2R in *; cbn [Qnum Qden] in *.

Lemma ReqbR_true x y : x = y -> ReqbR x y = true.
Proof. intros H. unfold ReqbR. destruct (Req_dec_T x y); [reflexivity | contradiction]. Qed.

Lemma ReqbR_false x y : x <> y -> ReqbR x y = false.
Proof. intros H. unfold ReqbR. destruct (Req_dec_T x y); [contradiction | reflexivity]. Qed.

Lemma lit_0 : Q2R 0 = 0.
Proof. unfold Q2R. cbn [Qnum Qden]. lra. Qed.

Lemma lit_1 : Q2R 1 = 1.
Proof. unfold Q2R. cbn [Qnum Qden]. lra. Qed.

Lemma computeAxis_zero : @computeAxis R _ 0 = Vec3 0 1 0.
Proof.
  unfold computeAxis. cbn [flit feqb exact_arith]. rewrite lit_0, lit_1.
  rewrite ReqbR_true by reflexivity. reflexivity.
Qed.

Lemma normalize_x : @normalize R _ (Vec3 1 0 0) = Vec3 1 0 0.
Proof.
  unfold normalize, inversesqrt, dot3, vec3_scale. cbn [x3 y3 z3].
  cbn [flit fadd fmul fdiv fsqrt exact_arith]. rewrite lit_1.
  replace (1 * 1 + 0 * 0 + 0 * 0) with 1 by lra.
  rewrite sqrt_1. f_equal; field.
Qed.

Lemma rotate_about_x (theta : R) :
  @rotate R _ (Mat4 (Vec4 1 0 0 0) (Vec4 0 1 0 0) (Vec4 0 0 1 0) (Vec4 0 0 0 1))
    theta (Vec3 1 0 0) =
  Mat4 (Vec4 1 0 0 0) (Vec4 0 (cos theta) (sin theta) 0)
       (Vec4 0 (- sin theta) (cos theta) 0) (Vec4 0 0 0 1).
Proof.
  unfold rotate. rewrite normalize_x. cbv zeta.
  unfold vec3_lscale, vec4_add, vec4_scale.
  cbn [x3 y3 z3 x4 y4 z4 w4 col0 col1 col2 col3].
  cbn [flit fadd fsub fmul fsin fcos exact_arith]. rewrite lit_1.
  f_equal; f_equal; lra.
Qed.

Lemma mat4_1_exact :
  @mat4_1 R _ = Mat4 (Vec4 1 0 0 0) (Vec4 0 1 0 0) (Vec4 0 0 1 0) (Vec4 0 0 0 1).
Proof. unfold mat4_1. cbn [flit exact_arith]. rewrite lit_0, lit_1. reflexivity. Qed.

Lemma rotated_vertical (theta : R) :
  vec3_of (mat4_mul_vec4 (@rotate R _ mat4_1 theta (Vec3 1 0 0)) (Vec4 0 1 0 0)) =
  Vec3 0 (cos theta) (sin theta).
Proof.
  rewrite mat4_1_exact, rotate_about_x.
  unfold mat4_mul_vec4, vec4_add, vec4_scale, vec3_of.
  cbn [x4 y4 z4 w4 col0 col1 col2 col3]. cbn [fadd fmul exact_arith].
  f_equal; lra.
Qed.

Lemma computeAxis_rotated (inclination : R) :
  inclination <> 0 ->
  @computeAxis R _ inclination =
  Vec3 0 (cos (radians inclination)) (sin (radians inclination)).
Proof.
  intros Hne. unfold computeAxis. cbn [flit feqb exact_arith].
  rewrite lit_0, lit_1. rewrite ReqbR_false by exact Hne.
  cbv zeta. unfold vec4_of. cbn [x3 y3 z3]. apply rotated_vertical.
Qed.

(** C6.  In exact arithmetic: [computeAxis 0] is the vertical axis (0,1,0),
    returned as it is; for every other inclination, however small, the
    result is the vertical axis rotated about the X axis by the inclination
    converted to radians, that is (0, cos theta, sin theta), and its length
    is 1. *)
Theorem computeAxis_vertical_or_rotated (inclination : R) :
  (inclination = 0 -> @computeAxis R _ inclination = Vec3 0 1 0) /\
  (inclination <> 0 ->
   let theta := inclination * Q2R 0.01745329251994329576923690768489 in
   let v := @computeAxis R _ inclination in
   v = vec3_of (mat4_mul_vec4 (rotate mat4_1 theta (Vec3 1 0 0)) (Vec4 0 1 0 0)) /\
   v = Vec3 0 (cos theta) (sin theta) /\
   x3 v * x3 v + y3 v * y3 v + z3 v * z3 v = 1).
Proof.
  split.
  - intros ->. apply computeAxis_zero.
  - intros Hne theta v.
    assert (Hv : v = Vec3 0 (cos theta) (sin theta)) by apply (computeAxis_rotated _ Hne).
    split; [|split; [exact Hv|]].
    + rewrite Hv. symmetry. apply rotated_vertical.
    + rewrite Hv. cbn [x3 y3 z3].
      pose proof (sin2_cos2 theta) as H. unfold Rsqr in H. lra.
Qed.

Lemma log10R_1000 : log10R 1000 = 3.
Proof.
  unfold log10R.
  assert (H10 : 0 < ln 10).
  { rewrite <- ln_1. apply ln_increasing; lra. }
  replace 1000 with (10 * (10 * 10)) by lra.
  rewrite !ln_mult by lra. field. lra.
Qed.

Lemma scaleDiameter_1000 : @scaleDiameter R _ 1000 = 0.
Proof. unfold scaleDiameter. exact_lits. rewrite log10R_1000. lra. Qed.

Lemma ln_16_vs_10 : 1.2 * ln 10 < ln 16.
Proof.
  assert (H : ln (10 ^ 6) < ln (16 ^ 5)) by (apply ln_increasing; lra).
  rewrite !ln_pow in H by lra. cbn [INR] in H. lra.
Qed.

Lemma scaleOrbitalRadius_pos (r : R) : 16 <= r -> 0 < @scaleOrbitalRadius R _ r.
Proof.
  intros Hr. unfold scaleOrbitalRadius. exact_lits. unfold log10R.
  assert (H10 : 0 < ln 10) by (rewrite <- ln_1; apply ln_increasing; lra).
  assert (H16 : ln 16 <= ln r).
  { destruct Hr as [Hlt|<-]; [left; apply ln_increasing; lra | right; reflexivity]. }
  pose proof ln_16_vs_10 as H.
  assert (Hq : 1.2 < ln r / ln 10).
  { apply Rmult_lt_reg_r with (ln 10); [exact H10|].
    unfold Rdiv. rewrite Rmult_assoc, Rinv_l by lra. lra. }
  lra.
Qed.

Lemma scaleVelocity_nonneg (v : R) : 0 <= @scaleVelocity R _ v.
Proof.
  unfold scaleVelocity. exact_lits. pose proof (sqrt_pos v). nra.
Qed.

Lemma advance_node_0 (p : (@Planet R)) : advance_node 0 p = p.
Proof.
  destruct p. unfold advance_node. cbn. exact_lits. f_equal; ring.
Qed.

Lemma advance_node_add (a b : R) (p : (@Planet R)) :
  advance_node b (advance_node a p) = advance_node (a + b) p.
Proof.
  destruct p. unfold advance_node. cbn. exact_lits. f_equal; ring.
Qed.

Lemma advance_all_0 l : forall h : list (option (@Planet R)), advance_all 0 l h = h.
Proof.
  induction l as [|x l IH]; intros h; [reflexivity|].
  rewrite advance_all_cons, IH. apply list_alter_id.
  intros [p|]; [cbn; rewrite advance_node_0|]; reflexivity.
Qed.

Lemma advance_all_add (a b : R) l (h : list (option (@Planet R))) :
  NoDup l ->
  advance_all b l (advance_all a l h) = advance_all (a + b) l h.
Proof.
  intros Hnd. apply list_eq. intros x.
  destruct (decide (x ∈ l)) as [Hin|Hnin].
  - rewrite !lookup_advance_in by assumption.
    destruct (h !! x) as [[p|]|]; cbn; [rewrite advance_node_add|..]; reflexivity.
  - rewrite !lookup_advance_notin by assumption. reflexivity.
Qed.

(** C4, as the modelled update has it.  On a built tree [update 0] leaves
    the whole state as it is, so every node keeps its phase, its spin angle
    and its derived transform (its local transform composed with those of
    its ancestors): in exact arithmetic for every catalog, and in binary32
    for the shipped catalog with draws other than -0.  Additivity holds in
    exact arithmetic: [update a] followed by [update b] gives the state that
    [update (a + b)] gives, in particular the same phase at every node. *)
Theorem advance_zero_and_additive
    (orbitTranslation : vec3 R -> R -> R -> mat4 R)
    (cat : @Catalog R) (dist : nat -> R) (s0 : @state R) (a b : R)
    (log10f sinf cosf : spec_float -> spec_float)
    (orbitTranslation32 :
       vec3 spec_float -> spec_float -> spec_float -> mat4 spec_float)
    (dist32 : nat -> spec_float) (s32 : @state spec_float) :
  (3 <= length (Planets cat))%nat -> 0 <= a -> 0 <= b ->
  (forall k, dist32 k <> S754_zero true) ->
  (exists data s s0' sa sab s',
     generateSolarSystem cat dist s0 = Ok (data, s) /\
     update 0 s = Ok (tt, s0') /\
     same_observable_state orbitTranslation
       (preorder (built_tree (length (planets s0)) (length (Planets cat)))) s s0' /\
     s0' = s /\
     update a s = Ok (tt, sa) /\
     update b sa = Ok (tt, sab) /\
     update (a + b) s = Ok (tt, s') /\
     sab = s' /\
     (forall x p q,
        planets sab !! x = Some (Some p) -> planets s' !! x = Some (Some q) ->
        phase p = phase q)) /\
  (exists data s s0',
     @generateSolarSystem _ (binary32_arith log10f sinf cosf)
       (@solar_system _ (binary32_arith log10f sinf cosf)) dist32 s32 = Ok (data, s) /\
     @update _ (binary32_arith log10f sinf cosf) (binary32_lit 0) s = Ok (tt, s0') /\
     @same_observable_state _ (binary32_arith log10f sinf cosf) orbitTranslation32
       (preorder (built_tree (length (planets s32)) 8)) s s0' /\
     s0' = s).
Proof.
  intros HC _ _ Hd. split.
  - set (t := built_tree (length (planets s0)) (length (Planets cat))).
    set (s := built_state cat dist s0).
    assert (Hroot : m_root s = Some (root t)) by reflexivity.
    assert (Ht : tree_at (planets s) None t) by apply built_state_tree, HC.
    assert (Hh : (height t <= length (planets s))%nat).
    { unfold t, s. rewrite height_built by exact HC. cbn [built_state planets].
      rewrite length_app, length_built_planets. lia. }
    assert (Hnd : NoDup (preorder t)) by apply NoDup_preorder_built, HC.
    exists (seq (length (shapes s0)) (length (Planets cat) + 2)), s, s,
           (with_planets s (advance_all a (preorder t) (planets s))),
           (with_planets s (advance_all (a + b) (preorder t) (planets s))),
           (with_planets s (advance_all (a + b) (preorder t) (planets s))).
    split; [apply build_ok, HC|].
    split. { rewrite (update_tree 0 t s Hroot Ht Hh), advance_all_0. reflexivity. }
    split; [apply same_observable_state_built, HC|].
    split; [reflexivity|].
    split; [apply (update_tree a t s Hroot Ht Hh)|].
    split.
    { rewrite (update_tree b t); cbn [with_planets planets m_root].
      - rewrite advance_all_add by exact Hnd. reflexivity.
      - exact Hroot.
      - apply tree_at_advance_all, Ht.
      - rewrite length_advance_all. exact Hh. }
    split; [apply (update_tree (a + b) t s Hroot Ht Hh)|].
    split; [reflexivity|].
    intros x p q Hp Hq. rewrite Hp in Hq. injection Hq as ->. reflexivity.
  - pose proof (binary32_catalog_has_eight log10f sinf cosf) as HC32.
    eexists _, _, _.
    split; [apply (@build_ok _ (binary32_arith log10f sinf cosf) _ dist32 s32 HC32)|].
    split; [apply (binary32_update_zero log10f sinf cosf dist32 s32 Hd)|].
    split; [|reflexivity].
    apply (@same_observable_state_built _ (binary32_arith log10f sinf cosf)
             orbitTranslation32 _ dist32 s32 HC32).
Qed.

Lemma solar_system_radii i r :
  Planets (@solar_system R _) !! i = Some r -> 16 <= orbital_radius r.
Proof.
  intros Hr.
  do 8 (destruct i as [|i];
        [injection Hr as <-; cbn [orbital_radius]; exact_lits; lra|]).
  discriminate Hr.
Qed.

Lemma node_ok_advance n0 a dt (p : (@Planet R)) :
  0 <= dt -> node_ok n0 a p -> node_ok n0 a (advance_node dt p).
Proof.
  intros Hdt [H0 Hpos]. split.
  - intros Ha. cbn. apply H0, Ha.
  - intros Ha. destruct (Hpos Ha) as (Hr & Hph & Hrate). cbn. exact_lits.
    repeat split; [exact Hr | nra | exact Hrate].
Qed.

Lemma built_nodes_ok (dist : nat -> R) (s0 : (@state R)) a :
  (forall k, 0 <= dist k < 2 * PI) ->
  a ∈ preorder (built_tree (length (planets s0)) 8) ->
  exists p, planets (built_state solar_system dist s0) !! a = Some (Some p) /\
            node_ok (length (planets s0)) a p /\
            (a <> length (planets s0) -> phase p < 2 * PI).
Proof.
  intros Hdist Ha. apply elem_of_preorder_built in Ha; [|lia].
  set (n0 := length (planets s0)) in *.
  destruct (decide (a = n0)) as [->|Hne]; [|destruct (decide (a = n0 + 9)%nat) as [->|Hne']].
  - eexists. split; [apply built_lookup_sun|]. split; [|contradiction].
    split; [intros _; cbn; exact_lits; lra | contradiction].
  - eexists. split; [apply (built_lookup_moon solar_system)|].
    split; [split; [lia|intros _] | intros _]; cbn; exact_lits.
    + repeat split; [lra | apply Hdist | apply scaleVelocity_nonneg].
    + apply Hdist.
  - assert (Hi : exists i, a = (n0 + S i)%nat /\ (i < 8)%nat).
    { exists (a - n0 - 1)%nat. lia. }
    destruct Hi as (i & -> & Hi).
    destruct (lookup_lt_is_Some_2 (Planets (@solar_system R _)) i Hi) as [r Hr].
    eexists. split; [apply (built_lookup_orbiting _ _ _ _ _ _ Hr)|].
    split; [split; [lia|intros _] | intros _]; cbn.
    + repeat split;
        [apply scaleOrbitalRadius_pos, (solar_system_radii _ _ Hr)
        | apply Hdist | apply scaleVelocity_nonneg].
    + apply Hdist.
Qed.

Lemma update_keeps_nodes_ok n0 t dt (s : (@state R)) :
  0 <= dt ->
  m_root s = Some (root t) ->
  tree_at (planets s) None t ->
  NoDup (preorder t) ->
  (height t <= length (planets s))%nat ->
  (forall a, a ∈ preorder t ->
     exists p, planets s !! a = Some (Some p) /\ node_ok n0 a p) ->
  exists s',
    update dt s = Ok (tt, s') /\
    m_root s' = Some (root t) /\
    tree_at (planets s') None t /\
    (height t <= length (planets s'))%nat /\
    (forall a, a ∈ preorder t ->
       exists p, planets s' !! a = Some (Some p) /\ node_ok n0 a p).
Proof.
  intros Hdt Hroot Ht Hnd Hh Hok.
  exists (with_planets s (advance_all dt (preorder t) (planets s))).
  split; [apply (update_tree dt t s Hroot Ht Hh)|].
  cbn [with_planets planets m_root].
  split; [exact Hroot|].
  split; [apply tree_at_advance_all, Ht|].
  split; [rewrite length_advance_all; exact Hh|].
  intros a Ha. destruct (Hok a Ha) as (p & Hp & Hpok).
  exists (advance_node dt p).
  rewrite lookup_advance_in, Hp by assumption.
  split; [reflexivity | apply node_ok_advance; assumption].
Qed.

Lemma advance_many_keeps_nodes_ok n0 t dts : forall s : (@state R),
  Forall (fun dt => 0 <= dt) dts ->
  m_root s = Some (root t) ->
  tree_at (planets s) None t ->
  NoDup (preorder t) ->
  (height t <= length (planets s))%nat ->
  (forall a, a ∈ preorder t ->
     exists p, planets s !! a = Some (Some p) /\ node_ok n0 a p) ->
  exists s',
    advance_many dts s = Ok (tt, s') /\
    m_root s' = Some (root t) /\
    tree_at (planets s') None t /\
    (forall a, a ∈ preorder t ->
       exists p, planets s' !! a = Some (Some p) /\ node_ok n0 a p).
Proof.
  induction dts as [|dt dts IH]; intros s Hdts Hroot Ht Hnd Hh Hok.
  - exists s. repeat split; assumption.
  - inversion Hdts as [|? ? Hdt Hdts']; subst.
    destruct (update_keeps_nodes_ok n0 t dt s Hdt Hroot Ht Hnd Hh Hok)
      as (s1 & Hrun & Hroot1 & Ht1 & Hh1 & Hok1).
    destruct (IH s1 Hdts' Hroot1 Ht1 Hnd Hh1 Hok1) as (s' & Hrun' & Hrest).
    exists s'. split; [|exact Hrest].
    cbn [advance_many]. unfold bind. rewrite Hrun. exact Hrun'.
Qed.

(** C8, as the code has it.  In every state reached from a tree built from
    the shipped catalog by any number of updates with non-negative
    [deltaTime], the root is the one node with orbit radius 0, every other
    node has a positive orbit radius and a phase that is not negative; the
    phase lies below 2 pi right after construction, when the draws do, and
    no update wraps it. *)
Theorem orbit_radius_invariant (dist : nat -> R) (s0 : (@state R)) (dts : list R) :
  (forall k, 0 <= dist k < 2 * PI) ->
  Forall (fun dt => 0 <= dt) dts ->
  exists data s s',
    generateSolarSystem solar_system dist s0 = Ok (data, s) /\
    advance_many dts s = Ok (tt, s') /\
    m_root s' = Some (length (planets s0)) /\
    tree_at (planets s') None (built_tree (length (planets s0)) 8) /\
    forall a, a ∈ preorder (built_tree (length (planets s0)) 8) ->
      exists p, planets s' !! a = Some (Some p) /\
        (a = length (planets s0) -> orbitRadius p = 0) /\
        (a <> length (planets s0) ->
           0 < orbitRadius p /\ 0 <= phase p /\ (dts = [] -> phase p < 2 * PI)).
Proof.
  intros Hdist Hdts.
  set (n0 := length (planets s0)). set (t := built_tree n0 8).
  set (s := built_state solar_system dist s0).
  assert (HC : (3 <= length (Planets (@solar_system R _)))%nat) by (cbn; lia).
  destruct (advance_many_keeps_nodes_ok n0 t dts s Hdts) as (s' & Hrun & Hroot & Ht & Hok).
  - reflexivity.
  - apply (built_state_tree solar_system dist s0 HC).
  - apply NoDup_preorder_built. lia.
  - unfold t. rewrite height_built by lia. unfold s. cbn [built_state planets].
    rewrite length_app, length_built_planets. lia.
  - intros a Ha. destruct (built_nodes_ok dist s0 a Hdist Ha) as (p & Hp & Hpok & _).
    exists p. split; assumption.
  - exists (seq (length (shapes s0)) (8 + 2)), s, s'.
    split; [apply (build_ok solar_system dist s0 HC)|].
    split; [exact Hrun|]. split; [exact Hroot|]. split; [exact Ht|].
    intros a Ha. destruct (Hok a Ha) as (p & Hp & H0 & Hpos).
    exists p. split; [exact Hp|]. split; [exact H0|].
    intros Hne. destruct (Hpos Hne) as (Hr & Hph & _).
    split; [exact Hr|]. split; [exact Hph|].
    intros ->. cbn in Hrun. injection Hrun as <-.
    destruct (built_nodes_ok dist s0 a Hdist Ha) as (q & Hq & _ & Hlt).
    fold s in Hq. rewrite Hq in Hp. injection Hp as <-. apply Hlt, Hne.
Qed.

Lemma sqrt_88 : / 10 <= sqrt (1 / 88).
Proof.
  rewrite <- (sqrt_square (/ 10)) by lra.
  apply sqrt_le_1_alt. lra.
Qed.

(** C8 fails as stated: with every initial phase drawn as 0, one update by
    100 takes the phase of the first orbiting body to at least 2 pi. *)
Lemma phase_exceeds_two_pi_after_advance :
  (forall k : nat, 0 <= (fun _ : nat => 0) k < 2 * PI) /\
  exists data s s' p,
    generateSolarSystem solar_system (fun _ => 0) new_PlanetarySystem = Ok (data, s) /\
    update 100 s = Ok (tt, s') /\
    planets s' !! 1%nat = Some (Some p) /\
    getParent p = Some 0%nat /\
    2 * PI <= phase p.
Proof.
  split. { intros _. pose proof PI_RGT_0. lra. }
  assert (HC : (3 <= length (Planets (@solar_system R _)))%nat) by (cbn; lia).
  set (s := built_state solar_system (fun _ => 0) (@new_PlanetarySystem R)).
  set (t := built_tree 0 8).
  assert (Hlook : planets s !! 1%nat =
            Some (Some (orbiting_node solar_system (fun _ => 0) 0 0 0
                          {| texture_fname := "resources/images/mercury.jpeg";
                             diameter := Q2R 4879; rotational_velocity := Q2R 10.83;
                             orbital_radius := Q2R 57.9; orbital_period := Q2R 88;
                             orbital_inclination := Q2R 7.0 |}))).
  { apply (built_lookup_orbiting solar_system (fun _ => 0) [] 0 0). reflexivity. }
  eexists _, s, (with_planets s (advance_all 100 (preorder t) (planets s))), _.
  split; [apply (build_ok solar_system _ (@new_PlanetarySystem R) HC)|].
  split.
  { apply (update_tree 100 t s);
      [reflexivity
      | apply (built_state_tree solar_system (fun _ => 0) (@new_PlanetarySystem R) HC) |].
    unfold t. rewrite height_built by lia. cbn. lia. }
  split.
  { cbn [with_planets planets]. rewrite lookup_advance_in, Hlook.
    - reflexivity.
    - apply NoDup_preorder_built. lia.
    - apply elem_of_preorder_built; lia. }
  split; [reflexivity|].
  cbn. exact_lits. pose proof PI_4. pose proof sqrt_88 as Hs.
  replace (1 * / 1 / (88 * / 1)) with (1 / 88) by field.
  nra.
Qed.

(** C5.  In exact arithmetic, the node built from an orbiting-body record
    (the [i]-th child of the root for the [i]-th record) has
    scale (log10 diameter - 3) * 0.5, self-spin rate
    rotational velocity / diameter, orbital rate sqrt (1 / period) * 10,
    orbit radius (log10 orbital radius - 1.2) * 7 and axis
    [computeAxis inclination]; and [scaleDiameter 1000 = 0]. *)
Theorem orbiting_node_parameters (cat : (@Catalog R)) (dist : nat -> R) (s0 : (@state R))
    (i : nat) (r : @SolarSystemPlanet R) :
  (3 <= length (Planets cat))%nat ->
  Planets cat !! i = Some r ->
  exists data s sun c p,
    generateSolarSystem cat dist s0 = Ok (data, s) /\
    m_root s = Some (length (planets s0)) /\
    planets s !! length (planets s0) = Some (Some sun) /\
    getChildren sun !! i = Some c /\
    planets s !! c = Some (Some p) /\
    scale_ p = (log10R (diameter r) - 3) * 0.5 /\
    selfSpinRate p = rotational_velocity r / diameter r /\
    orbitalRate p = sqrt (1 / orbital_period r) * 10 /\
    orbitRadius p = (log10R (orbital_radius r) - 1.2) * 7 /\
    axis p = computeAxis (orbital_inclination r) /\
    @scaleDiameter R _ 1000 = 0.
Proof.
  intros HC Hr.
  exists (seq (length (shapes s0)) (length (Planets cat) + 2)), (built_state cat dist s0),
         (sun_node cat (length (planets s0)) (length (shapes s0))),
         (length (planets s0) + S i)%nat,
         (orbiting_node cat dist (length (planets s0)) (length (shapes s0)) i r).
  split; [apply build_ok, HC|].
  split; [reflexivity|].
  split; [apply built_lookup_sun|].
  split. { cbn. rewrite lookup_seq_lt by (eapply lookup_lt_Some, Hr). f_equal. lia. }
  split; [apply (built_lookup_orbiting _ _ _ _ _ _ Hr)|].
  cbn [orbiting_node planet_of with_children with_parent Planet_new
       scale_ selfSpinRate orbitalRate orbitRadius axis].
  unfold scaleDiameter, scaleVelocity, scaleOrbitalRadius.
  split; [exact_lits; lra|].
  split; [reflexivity|].
  split; [exact_lits; replace (1 * / 1) with 1 by lra; lra|].
  split; [exact_lits; lra|].
  split; [reflexivity | apply scaleDiameter_1000].
Qed.

(** C1 fails as stated: a catalog whose first orbiting body has diameter 0
    is built like any other; the tree is complete and the node of that body
    carries [scaleDiameter 0]. *)
Lemma zero_diameter_catalog_is_built :
  (exists r, r ∈ Planets (@zero_diameter_catalog R _) /\ diameter r <= 0) /\
  exists data s p,
    generateSolarSystem zero_diameter_catalog (fun _ => 0) new_PlanetarySystem
      = Ok (data, s) /\
    m_root s = Some 0%nat /\
    length (planets s) = 10%nat /\
    tree_at (planets s) None (built_tree 0 8) /\
    planets s !! 1%nat = Some (Some p) /\
    getParent p = Some 0%nat /\
    scale_ p = @scaleDiameter R _ 0.
Proof.
  assert (HC : (3 <= length (Planets (@zero_diameter_catalog R _)))%nat) by (cbn; lia).
  split.
  - eexists. split; [apply list_elem_of_here|].
    cbn [diameter flit exact_arith]. rewrite lit_0. lra.
  - eexists _, (built_state zero_diameter_catalog (fun _ => 0) (@new_PlanetarySystem R)), _.
    split; [apply (build_ok zero_diameter_catalog _ (@new_PlanetarySystem R) HC)|].
    split; [reflexivity|].
    split; [reflexivity|].
    split; [apply (built_state_tree zero_diameter_catalog (fun _ => 0)
                     (@new_PlanetarySystem R) HC)|].
    split; [apply (built_lookup_orbiting zero_diameter_catalog (fun _ => 0) [] 0 0);
            reflexivity|].
    split; [reflexivity|].
    cbn [orbiting_node planet_of with_children with_parent Planet_new scale_ diameter
         flit exact_arith].
    rewrite lit_0. reflexivity.
Qed.

(* ----------------------------------------------------------------- *)
(** *** Further properties of the scaling functions and the matrices *)

Lemma ln_10_pos : 0 < ln 10.
Proof. rewrite <- ln_1. apply ln_increasing; lra. Qed.

Lemma log10R_lt (x y : R) : 0 < x -> 0 < y -> (log10R x < log10R y <-> x < y).
Proof.
  intros Hx Hy. unfold log10R. pose proof ln_10_pos as H10. split.
  - intros H. apply ln_lt_inv; [exact Hx | exact Hy|].
    apply (Rmult_lt_reg_r (/ ln 10)); [apply Rinv_0_lt_compat, H10 | exact H].
  - intros H. apply Rmult_lt_compat_r; [apply Rinv_0_lt_compat, H10|].
    apply ln_increasing; assumption.
Qed.

(** X12.  In exact arithmetic [scaleDiameter] keeps the order of positive
    diameters, and its sign changes at 1000 km: a body smaller than that
    gets a negative scale, a larger one a positive scale. *)
Theorem scaleDiameter_order (d1 d2 : R) :
  0 < d1 -> 0 < d2 ->
  (@scaleDiameter R _ d1 < @scaleDiameter R _ d2 <-> d1 < d2) /\
  (@scaleDiameter R _ d1 < 0 <-> d1 < 1000) /\
  (0 < @scaleDiameter R _ d1 <-> 1000 < d1).
Proof.
  intros H1 H2. unfold scaleDiameter. exact_lits.
  pose proof (log10R_lt d1 d2 H1 H2) as H12.
  pose proof (log10R_lt d1 1000 H1 ltac:(lra)) as Hlo.
  pose proof (log10R_lt 1000 d1 ltac:(lra) H1) as Hhi.
  rewrite log10R_1000 in Hlo, Hhi.
  split; [|split]; split; intros H.
  - apply H12. lra.
  - apply H12 in H. lra.
  - apply Hlo. lra.
  - apply Hlo in H. lra.
  - apply Hhi. lra.
  - apply Hhi in H. lra.
Qed.

Lemma log10R_threshold : log10R (Rpower 10 1.2) = 1.2.
Proof.
  unfold log10R, Rpower. rewrite ln_exp. pose proof ln_10_pos. field. lra.
Qed.

Lemma threshold_bounds : 15 < Rpower 10 1.2 < 16.
Proof.
  pose proof ln_10_pos as H10.
  assert (Hlo : ln (15 ^ 5) < ln (10 ^ 6)) by (apply ln_increasing; lra).
  assert (Hhi : ln (10 ^ 6) < ln (16 ^ 5)) by (apply ln_increasing; lra).
  rewrite !ln_pow in Hlo, Hhi by lra. cbn [INR] in Hlo, Hhi.
  assert (Hp : 0 < Rpower 10 1.2) by (unfold Rpower; apply exp_pos).
  assert (Hln : ln (Rpower 10 1.2) = 1.2 * ln 10) by (unfold Rpower; apply ln_exp).
  split; (apply ln_lt_inv; [lra | lra | lra]).
Qed.

(** X13.  In exact arithmetic [scaleOrbitalRadius] keeps the order of
    positive orbital radii, and the scaled radius is positive exactly for
    radii above 10^1.2, which lies between 15 and 16 (in 10^6 km): a body
    closer than that gets an orbit radius that is not positive. *)
Theorem scaleOrbitalRadius_order (r1 r2 : R) :
  0 < r1 -> 0 < r2 ->
  (@scaleOrbitalRadius R _ r1 < @scaleOrbitalRadius R _ r2 <-> r1 < r2) /\
  (0 < @scaleOrbitalRadius R _ r1 <-> Rpower 10 1.2 < r1) /\
  15 < Rpower 10 1.2 < 16.
Proof.
  intros H1 H2. unfold scaleOrbitalRadius. exact_lits.
  assert (Hp : 0 < Rpower 10 1.2) by (unfold Rpower; apply exp_pos).
  pose proof (log10R_lt r1 r2 H1 H2) as H12.
  pose proof (log10R_lt (Rpower 10 1.2) r1 Hp H1) as Hth.
  rewrite log10R_threshold in Hth.
  split; [|split; [|exact threshold_bounds]]; split; intros H.
  - apply H12. lra.
  - apply H12 in H. lra.
  - apply Hth. lra.
  - apply Hth in H. lra.
Qed.

(** X14.  The orbital rate the build computes from a period,
    [scaleVelocity (1 / period)], in exact arithmetic: it is positive for a
    positive period, a longer period gives a strictly smaller rate, and the
    square of the rate times the period is 100. *)
Theorem orbital_rate_decreases_with_period (T1 T2 : R) :
  0 < T1 -> T1 < T2 ->
  0 < @scaleVelocity R _ (1 / T2) /\
  @scaleVelocity R _ (1 / T2) < @scaleVelocity R _ (1 / T1) /\
  @scaleVelocity R _ (1 / T1) * @scaleVelocity R _ (1 / T1) * T1 = 100.
Proof.
  intros H1 H12. unfold scaleVelocity. exact_lits.
  assert (Hi1 : 0 < 1 / T1) by (apply Rdiv_lt_0_compat; lra).
  assert (Hi2 : 0 < 1 / T2) by (apply Rdiv_lt_0_compat; lra).
  assert (Hlt : 1 / T2 < 1 / T1).
  { unfold Rdiv. rewrite !Rmult_1_l. apply Rinv_lt_contravar; [nra | exact H12]. }
  pose proof (sqrt_lt_R0 _ Hi2) as Hs2.
  pose proof (sqrt_lt_1_alt (1 / T2) (1 / T1) ltac:(lra)) as Hs.
  pose proof (sqrt_sqrt (1 / T1) ltac:(lra)) as Hsq.
  split; [lra|]. split; [lra|].
  replace (sqrt (1 / T1) * (10 * / 1) * (sqrt (1 / T1) * (10 * / 1)) * T1)
    with (sqrt (1 / T1) * sqrt (1 / T1) * T1 * 100) by field.
  rewrite Hsq. field. lra.
Qed.

(** X15.  In exact arithmetic the early return of [computeAxis] agrees with
    the rotation it skips: for every inclination, 0 included, the result is
    the vertical axis rotated about the X axis, (0, cos theta, sin theta)
    with theta the inclination in radians.  Negating the inclination
    mirrors the axis in the XY plane. *)
Theorem computeAxis_early_return_agrees_with_rotation (inclination : R) :
  @computeAxis R _ inclination =
    vec3_of (mat4_mul_vec4 (rotate mat4_1 (radians inclination) (Vec3 1 0 0))
                           (Vec4 0 1 0 0)) /\
  @computeAxis R _ inclination =
    Vec3 0 (cos (radians inclination)) (sin (radians inclination)) /\
  @computeAxis R _ (- inclination) =
    Vec3 0 (y3 (@computeAxis R _ inclination)) (- z3 (@computeAxis R _ inclination)).
Proof.
  assert (Hall : forall i, @computeAxis R _ i = Vec3 0 (cos (radians i)) (sin (radians i))).
  { intros i. destruct (Req_dec_T i 0) as [->|Hne].
    - rewrite computeAxis_zero. unfold radians. cbn [fmul exact_arith].
      rewrite Rmult_0_l, cos_0, sin_0. reflexivity.
    - apply computeAxis_rotated, Hne. }
  split; [|split].
  - rewrite Hall. symmetry. apply rotated_vertical.
  - apply Hall.
  - rewrite !Hall. cbn [y3 z3].
    assert (Hr : @radians R _ (- inclination) = - @radians R _ inclination).
    { unfold radians. cbn [fmul exact_arith]. ring. }
    rewrite Hr, cos_neg, sin_neg. reflexivity.
Qed.

Lemma mat4_mul_1_r (m : mat4 R) : mat4_mul m mat4_1 = m.
Proof.
  destruct m as [[a0 a1 a2 a3] [b0 b1 b2 b3] [c0 c1 c2 c3] [d0 d1 d2 d3]].
  rewrite mat4_1_exact.
  unfold mat4_mul, mat4_mul_col, vec4_add, vec4_scale.
  cbn [x4 y4 z4 w4 col0 col1 col2 col3]. cbn [fadd fmul exact_arith].
  f_equal; f_equal; lra.
Qed.

Lemma scale_splat (k : R) :
  glm.scale (vec3_splat k) =
  Mat4 (Vec4 k 0 0 0) (Vec4 0 k 0 0) (Vec4 0 0 k 0) (Vec4 0 0 0 1).
Proof.
  unfold glm.scale, scale_mat, vec3_splat. rewrite mat4_1_exact.
  unfold vec4_scale. cbn [x3 y3 z3 x4 y4 z4 w4 col0 col1 col2 col3].
  cbn [fmul exact_arith]. f_equal; f_equal; lra.
Qed.

(** X16.  The entry [getOrbitCtmsHelper] pushes for a node, in exact
    arithmetic: the trailing [* glm::mat4(1)] changes nothing, and the scale
    factor is the diagonal matrix of the orbit's diameter,
    diag (2r, 2r, 2r, 1), between the parent's translation and the node's
    orientation. *)
Theorem orbit_locus_matrix_exact
    (getTranslateMat getOrientMat : @Planet R -> mat4 R) (parent p : @Planet R) :
  orbit_ctm getTranslateMat getOrientMat parent p =
  mat4_mul
    (mat4_mul (getTranslateMat parent)
       (Mat4 (Vec4 (2 * orbitRadius p) 0 0 0) (Vec4 0 (2 * orbitRadius p) 0 0)
             (Vec4 0 0 (2 * orbitRadius p) 0) (Vec4 0 0 0 1)))
    (getOrientMat p).
Proof.
  unfold orbit_ctm. rewrite mat4_mul_1_r, scale_splat.
  unfold getOrbitRadius. cbn [flit fmul exact_arith].
  replace (Q2R 2) with 2 by (unfold Q2R; cbn [Qnum Qden]; lra).
  reflexivity.
Qed.

End Exact.

(* ================================================================= *)
(** ** The theorems at concrete inputs

    Each theorem above that has a hypothesis is applied here to the shipped
    catalog (or the catalog with a zero diameter), in exact arithmetic,
    starting from a fresh [PlanetarySystem], with every draw equal to 0; the
    binary32 part of the theorem on the update is applied with every draw
    equal to 1. *)

Section Witnesses.
Local Open Scope R_scope.

Lemma shipped_catalog_has_eight : (3 <= length (Planets (@solar_system R _)))%nat.
Proof. cbn [solar_system Planets length]. lia. Qed.

Lemma build_ignores_record_values_witness :
  (3 <= length (Planets (@zero_diameter_catalog R _)))%nat /\
  exists data s,
    generateSolarSystem zero_diameter_catalog (fun _ => 0) new_PlanetarySystem
      = Ok (data, s) /\
    m_root s = Some 0%nat.
Proof.
  assert (H : (3 <= length (Planets (@zero_diameter_catalog R _)))%nat)
    by (cbn [zero_diameter_catalog solar_system Planets tl length]; lia).
  split; [exact H|].
  destruct (build_ignores_record_values zero_diameter_catalog (fun _ => 0)
              new_PlanetarySystem H) as (data & s & Hrun & Hroot & _).
  exists data, s. split; assumption.
Defined.

Lemma built_tree_shape_witness :
  (3 <= length (Planets (@solar_system R _)))%nat /\
  exists data s,
    generateSolarSystem solar_system (fun _ => 0) new_PlanetarySystem = Ok (data, s) /\
    length (planets s) = 10%nat /\
    tree_at (planets s) None (built_tree 0 8).
Proof.
  split; [exact shipped_catalog_has_eight|].
  destruct (built_tree_shape solar_system (fun _ => 0) new_PlanetarySystem
              shipped_catalog_has_eight)
    as (data & s & sun & moon & Hrun & Hlen & Ht & _).
  exists data, s. repeat split; assumption.
Defined.

Lemma orbit_loci_in_preorder_witness :
  (3 <= length (Planets (@solar_system R _)))%nat /\
  exists data s ctms,
    generateSolarSystem solar_system (fun _ => 0) new_PlanetarySystem = Ok (data, s) /\
    getOrbitCtms (fun _ => mat4_1) (fun _ => mat4_1) s = Ok (ctms, s) /\
    length ctms = 9%nat.
Proof.
  split; [exact shipped_catalog_has_eight|].
  destruct (orbit_loci_in_preorder (fun _ => mat4_1) (fun _ => mat4_1) solar_system
              (fun _ => 0) new_PlanetarySystem shipped_catalog_has_eight)
    as (data & s & ctms & Hrun & Hctms & Hlen & _).
  exists data, s, ctms. repeat split; assumption.
Defined.

Lemma advance_zero_and_additive_witness :
  (3 <= length (Planets (@solar_system R _)))%nat /\ 0 <= 1 /\ 0 <= 2 /\
  (forall k : nat, (fun _ : nat => binary32_lit 1) k <> S754_zero true) /\
  forall log10f sinf cosf : spec_float -> spec_float,
    (exists data s sa sab,
       generateSolarSystem solar_system (fun _ => 0) new_PlanetarySystem = Ok (data, s) /\
       update 0 s = Ok (tt, s) /\
       update 1 s = Ok (tt, sa) /\
       update 2 sa = Ok (tt, sab) /\
       update (1 + 2) s = Ok (tt, sab)) /\
    (exists data s,
       @generateSolarSystem _ (binary32_arith log10f sinf cosf)
         (@solar_system _ (binary32_arith log10f sinf cosf))
         (fun _ => binary32_lit 1) new_PlanetarySystem = Ok (data, s) /\
       @update _ (binary32_arith log10f sinf cosf) (binary32_lit 0) s = Ok (tt, s)).
Proof.
  assert (Hd : forall k : nat, (fun _ : nat => binary32_lit 1) k <> S754_zero true).
  { intros _. discriminate. }
  split; [exact shipped_catalog_has_eight|].
  split; [lra|]. split; [lra|]. split; [exact Hd|].
  intros log10f sinf cosf.
  destruct (advance_zero_and_additive (fun _ _ _ => mat4_1) solar_system (fun _ => 0)
              new_PlanetarySystem 1 2 log10f sinf cosf
              (fun _ _ _ => @mat4_1 _ (binary32_arith log10f sinf cosf))
              (fun _ => binary32_lit 1) new_PlanetarySystem
              shipped_catalog_has_eight ltac:(lra) ltac:(lra) Hd)
    as [(data & s & s0' & sa & sab & s' & Hrun & H0 & _ & Heq0 & Ha & Hb & Hab & Heq & _)
        (data32 & s32 & s32' & Hrun32 & H32 & _ & Heq32)].
  split.
  - rewrite Heq0 in H0. rewrite <- Heq in Hab.
    exists data, s, sa, sab. repeat split; assumption.
  - rewrite Heq32 in H32. exists data32, s32. split; assumption.
Defined.
Lemma orbiting_node_parameters_witness :
  (3 <= length (Planets (@solar_system R _)))%nat /\
  exists r,
    Planets (@solar_system R _) !! 0%nat = Some r /\
    exists data s sun c p,
      generateSolarSystem solar_system (fun _ => 0) new_PlanetarySystem = Ok (data, s) /\
      planets s !! 0%nat = Some (Some sun) /\
      getChildren sun !! 0%nat = Some c /\
      planets s !! c = Some (Some p) /\
      scale_ p = (log10R (diameter r) - 3) * 0.5 /\
      orbitalRate p = sqrt (1 / orbital_period r) * 10.
Proof.
  split; [exact shipped_catalog_has_eight|].
  eexists. split; [reflexivity|].
  destruct (orbiting_node_parameters solar_system (fun _ => 0) new_PlanetarySystem 0 _
              shipped_catalog_has_eight eq_refl)
    as (data & s & sun & c & p & Hrun & Hroot & Hsun & Hc & Hp & Hscale & _ & Hrate & _).
  exists data, s, sun, c, p. repeat split; assumption.
Defined.

Lemma computeAxis_vertical_or_rotated_witness :
  @computeAxis R _ 0 = Vec3 0 1 0 /\
  7 <> 0 /\
  x3 (@computeAxis R _ 7) * x3 (@computeAxis R _ 7)
  + y3 (@computeAxis R _ 7) * y3 (@computeAxis R _ 7)
  + z3 (@computeAxis R _ 7) * z3 (@computeAxis R _ 7) = 1.
Proof.
  assert (H7 : 7 <> 0) by lra.
  split; [exact (proj1 (computeAxis_vertical_or_rotated 0) eq_refl)|].
  split; [exact H7|].
  exact (proj2 (proj2 (proj2 (computeAxis_vertical_or_rotated 7) H7))).
Defined.

Lemma render_payloads_in_catalog_order_witness :
  (3 <= length (Planets (@solar_system R _)))%nat /\
  exists data s,
    generateSolarSystem solar_system (fun _ => 0) new_PlanetarySystem = Ok (data, s) /\
    Forall (fun a => exists sh, shapes s !! a = Some sh /\
                       type (primitive sh) = PRIMITIVE_SPHERE /\
                       ctm sh = mat4_1) data.
Proof.
  split; [exact shipped_catalog_has_eight|].
  destruct (render_payloads_in_catalog_order solar_system (fun _ => 0) new_PlanetarySystem
              shipped_catalog_has_eight)
    as (data & s & sun & moon & s' & Hrun & _ & Hall & _).
  exists data, s. split; assumption.
Defined.

Lemma orbit_radius_invariant_witness :
  (forall k : nat, 0 <= (fun _ : nat => 0) k < 2 * PI) /\
  Forall (fun dt => 0 <= dt) [1; 2] /\
  exists data s s',
    generateSolarSystem solar_system (fun _ => 0) new_PlanetarySystem = Ok (data, s) /\
    advance_many [1; 2] s = Ok (tt, s') /\
    m_root s' = Some 0%nat.
Proof.
  assert (Hd : forall k : nat, 0 <= (fun _ : nat => 0) k < 2 * PI).
  { intros _. pose proof PI_RGT_0. lra. }
  assert (Ht : Forall (fun dt => 0 <= dt) [1; 2]).
  { repeat constructor; lra. }
  split; [exact Hd|]. split; [exact Ht|].
  destruct (orbit_radius_invariant (fun _ => 0) new_PlanetarySystem [1; 2] Hd Ht)
    as (data & s & s' & Hrun & Hadv & Hroot & _).
  exists data, s, s'. repeat split; assumption.
Defined.

Lemma teardown_releases_each_node_once_witness :
  (3 <= length (Planets (@solar_system R _)))%nat /\
  exists data s s',
    generateSolarSystem solar_system (fun _ => 0) new_PlanetarySystem = Ok (data, s) /\
    PlanetarySystem_destructor s = Ok (tt, s') /\
    released s' = [1; 2; 9; 3; 4; 5; 6; 7; 8; 0]%nat.
Proof.
  split; [exact shipped_catalog_has_eight|].
  destruct (teardown_releases_each_node_once solar_system (fun _ => 0) new_PlanetarySystem
              shipped_catalog_has_eight)
    as (data & s & s' & Hrun & Hdel & Hrel & Hpost & _).
  exists data, s, s'. split; [exact Hrun|]. split; [exact Hdel|].
  rewrite Hrel, Hpost.
  pose proof (build_ok solar_system (fun _ => 0) (@new_PlanetarySystem R)
                shipped_catalog_has_eight) as Hb.
  rewrite Hrun in Hb. injection Hb as _ ->. reflexivity.
Defined.

Lemma destructor_before_build_witness :
  m_root (@new_PlanetarySystem R) = None /\
  PlanetarySystem_destructor (@new_PlanetarySystem R) = Ok (tt, new_PlanetarySystem).
Proof.
  split; [reflexivity|].
  exact (destructor_before_build new_PlanetarySystem eq_refl).
Defined.

(* ----------------------------------------------------------------- *)
(** *** The further properties at concrete inputs

    The subtree used below is the one of the third orbiting body of the
    shipped catalog: the node at address 3 with the satellite, at address 9,
    as its only child.  Where the draws matter, the [k]-th draw is [k]. *)

Lemma shipped_tree :
  built_tree 0 8 =
  Node 0 [Node 1 []; Node 2 []; Node 3 [Node 9 []]; Node 4 []; Node 5 [];
          Node 6 []; Node 7 []; Node 8 []]%nat.
Proof. reflexivity. Qed.

Lemma third_body_subtree :
  tree_at (planets (built_state (@solar_system R _) (fun _ => 0) new_PlanetarySystem))
          (Some 0%nat) (Node 3 [Node 9 []]).
Proof.
  pose proof (built_state_tree solar_system (fun _ => 0) (@new_PlanetarySystem R)
                shipped_catalog_has_eight) as Ht.
  change (built_tree _ _) with (built_tree 0 8) in Ht. rewrite shipped_tree in Ht.
  inversion Ht as [par a p ks Hl Hp Hc Hks]; subst.
  rewrite Forall_lookup in Hks. exact (Hks 2%nat _ eq_refl).
Qed.

Lemma third_body_subtree_NoDup : NoDup (preorder (Node 3 [Node 9 []])).
Proof.
  cbn. apply NoDup_cons. split; [|apply NoDup_singleton].
  rewrite list_elem_of_singleton. lia.
Qed.

Lemma build_appends_and_keeps_the_rest_witness :
  (3 <= length (Planets (@solar_system R _)))%nat /\
  exists data s,
    generateSolarSystem solar_system (fun _ => 0) new_PlanetarySystem = Ok (data, s) /\
    length (planets s) = 10%nat /\
    length (shapes s) = 10%nat /\
    data = seq 0 10.
Proof.
  split; [exact shipped_catalog_has_eight|].
  destruct (build_appends_and_keeps_the_rest solar_system (fun _ => 0) new_PlanetarySystem
              shipped_catalog_has_eight)
    as (data & s & Hrun & Hlp & Hls & _ & _ & _ & Hdata & _).
  exists data, s.
  split; [exact Hrun|]. split; [exact Hlp|]. split; [exact Hls | exact Hdata].
Defined.

Lemma rebuilding_leaks_the_first_tree_witness :
  (3 <= length (Planets (@solar_system R _)))%nat /\
  exists d1 s1 d2 s2 s3,
    generateSolarSystem solar_system (fun _ => 0) new_PlanetarySystem = Ok (d1, s1) /\
    generateSolarSystem solar_system (fun _ => 0) s1 = Ok (d2, s2) /\
    m_root s2 = Some (length (planets s1)) /\
    PlanetarySystem_destructor s2 = Ok (tt, s3) /\
    exists p, planets s3 !! length (planets (@new_PlanetarySystem R)) = Some (Some p).
Proof.
  split; [exact shipped_catalog_has_eight|].
  destruct (rebuilding_leaks_the_first_tree solar_system solar_system (fun _ => 0)
              (fun _ => 0) new_PlanetarySystem
              shipped_catalog_has_eight shipped_catalog_has_eight)
    as (d1 & s1 & d2 & s2 & s3 & Hr1 & Hr2 & Hroot1 & Hroot2 & Hdel & Hleak & _).
  exists d1, s1, d2, s2, s3.
  split; [exact Hr1|]. split; [exact Hr2|]. split; [exact Hroot2|].
  split; [exact Hdel|].
  assert (Hlt : (length (planets (@new_PlanetarySystem R)) < length (planets s1))%nat).
  { pose proof (build_ok solar_system (fun _ => 0) (@new_PlanetarySystem R)
                  shipped_catalog_has_eight) as Hb.
    rewrite Hr1 in Hb. injection Hb as _ ->. cbn. lia. }
  destruct (Hleak _ (conj (le_n _) Hlt)) as (p & _ & Hp).
  exists p. exact Hp.
Defined.

Lemma root_and_satellite_parameters_witness :
  (3 <= length (Planets (@solar_system R _)))%nat /\
  exists data s sun moon,
    generateSolarSystem solar_system (fun _ => 0) new_PlanetarySystem = Ok (data, s) /\
    planets s !! 0%nat = Some (Some sun) /\
    orbitRadius sun = Q2R 0 /\
    planets s !! 9%nat = Some (Some moon) /\
    scale_ moon = diameter (Moon (@solar_system R _)) / Q2R 20000.
Proof.
  split; [exact shipped_catalog_has_eight|].
  destruct (root_and_satellite_parameters solar_system (fun _ => 0) new_PlanetarySystem
              shipped_catalog_has_eight)
    as (data & s & sun & moon & Hrun & Hsun & _ & _ & _ & _ & Hrad & _ & Hmoon & Hscale & _).
  exists data, s, sun, moon.
  split; [exact Hrun|]. split; [exact Hsun|]. split; [exact Hrad|].
  split; [exact Hmoon | exact Hscale].
Defined.

Lemma initial_phases_follow_the_draws_witness :
  (3 <= length (Planets (@solar_system R _)))%nat /\
  exists data s moon,
    generateSolarSystem solar_system INR new_PlanetarySystem = Ok (data, s) /\
    planets s !! 9%nat = Some (Some moon) /\
    phase moon = INR 8.
Proof.
  split; [exact shipped_catalog_has_eight|].
  destruct (initial_phases_follow_the_draws solar_system INR new_PlanetarySystem
              shipped_catalog_has_eight)
    as (data & s & Hrun & _ & moon & Hmoon & Hphase).
  exists data, s, moon.
  split; [exact Hrun|]. split; [exact Hmoon | exact Hphase].
Defined.

Lemma payload_materials_witness :
  (3 <= length (Planets (@solar_system R _)))%nat /\
  exists data s,
    generateSolarSystem solar_system (fun _ => 0) new_PlanetarySystem = Ok (data, s) /\
    forall k a, data !! k = Some a ->
      exists sh, shapes s !! a = Some sh /\
                 isUsed (textureMap (material (primitive sh))) = true.
Proof.
  split; [exact shipped_catalog_has_eight|].
  destruct (payload_materials solar_system (fun _ => 0) new_PlanetarySystem
              shipped_catalog_has_eight)
    as (data & s & Hrun & Hmat).
  exists data, s. split; [exact Hrun|].
  intros k a Hk. destruct (Hmat k a Hk) as (sh & Hsh & _ & Hused & _).
  exists sh. split; [exact Hsh | exact Hused].
Defined.

Lemma parents_and_children_agree_witness :
  (3 <= length (Planets (@solar_system R _)))%nat /\
  exists data s,
    generateSolarSystem solar_system (fun _ => 0) new_PlanetarySystem = Ok (data, s) /\
    forall a c p q,
      planets s !! a = Some (Some p) ->
      planets s !! c = Some (Some q) ->
      (c ∈ getChildren p <-> getParent q = Some a).
Proof.
  split; [exact shipped_catalog_has_eight|].
  destruct (parents_and_children_agree solar_system (fun _ => 0) new_PlanetarySystem
              shipped_catalog_has_eight)
    as (data & s & Hrun & Hagree).
  exists data, s. split; [exact Hrun|].
  intros a c p q. apply Hagree; cbn; lia.
Defined.

Lemma deletePlanet_releases_exactly_the_subtree_witness :
  tree_at (planets (built_state (@solar_system R _) (fun _ => 0) new_PlanetarySystem))
          (Some 0%nat) (Node 3 [Node 9 []]) /\
  NoDup (preorder (Node 3 [Node 9 []])) /\
  (height (Node 3 [Node 9 []]) <= 2)%nat /\
  exists s',
    deletePlanet 2 3 (built_state (@solar_system R _) (fun _ => 0) new_PlanetarySystem)
      = Ok (tt, s') /\
    released s' = [9; 3]%nat /\
    m_root s' = Some 0%nat.
Proof.
  assert (Hh : (height (Node 3 [Node 9 []]) <= 2)%nat) by (cbn; lia).
  split; [exact third_body_subtree|]. split; [exact third_body_subtree_NoDup|].
  split; [exact Hh|].
  destruct (deletePlanet_releases_exactly_the_subtree 2 (Node 3 [Node 9 []]) (Some 0%nat)
              (built_state (@solar_system R _) (fun _ => 0) new_PlanetarySystem)
              third_body_subtree third_body_subtree_NoDup Hh)
    as (s' & Hrun & Hrel & _ & _ & _ & _ & Hroot).
  exists s'. split; [exact Hrun|]. split; [exact Hrel | exact Hroot].
Defined.

Lemma deletePlanet_twice_is_undefined_witness :
  tree_at (planets (built_state (@solar_system R _) (fun _ => 0) new_PlanetarySystem))
          (Some 0%nat) (Node 3 [Node 9 []]) /\
  NoDup (preorder (Node 3 [Node 9 []])) /\
  (height (Node 3 [Node 9 []]) <= 2)%nat /\
  exists s',
    deletePlanet 2 3 (built_state (@solar_system R _) (fun _ => 0) new_PlanetarySystem)
      = Ok (tt, s') /\
    deletePlanet 2 3 s' = Undefined.
Proof.
  assert (Hh : (height (Node 3 [Node 9 []]) <= 2)%nat) by (cbn; lia).
  split; [exact third_body_subtree|]. split; [exact third_body_subtree_NoDup|].
  split; [exact Hh|].
  exact (deletePlanet_twice_is_undefined 2 1 (Node 3 [Node 9 []]) (Some 0%nat)
           (built_state (@solar_system R _) (fun _ => 0) new_PlanetarySystem)
           third_body_subtree third_body_subtree_NoDup Hh).
Defined.

Lemma getOrbitCtmsHelper_appends_the_subtree_witness :
  tree_at (planets (built_state (@solar_system R _) (fun _ => 0) new_PlanetarySystem))
          (Some 0%nat) (Node 3 [Node 9 []]) /\
  (height (Node 3 [Node 9 []]) <= 2)%nat /\
  exists out,
    (forall ctms,
       getOrbitCtmsHelper (fun _ => mat4_1) (fun _ => mat4_1) 2 ctms 3
         (built_state (@solar_system R _) (fun _ => 0) new_PlanetarySystem)
       = Ok (ctms ++ out,
             built_state (@solar_system R _) (fun _ => 0) new_PlanetarySystem)) /\
    length out = 2%nat.
Proof.
  assert (Hh : (height (Node 3 [Node 9 []]) <= 2)%nat) by (cbn; lia).
  split; [exact third_body_subtree|]. split; [exact Hh|].
  destruct (getOrbitCtmsHelper_appends_the_subtree (fun _ => mat4_1) (fun _ => mat4_1)
              2 (Node 3 [Node 9 []]) (Some 0%nat)
              (built_state (@solar_system R _) (fun _ => 0) new_PlanetarySystem)
              third_body_subtree Hh)
    as (out & Hrun & Hlen & _).
  - intros pa [= <-]. eexists.
    apply (built_lookup_sun solar_system (fun _ => 0) [] 0).
  - exists out. split; [exact Hrun | exact Hlen].
Defined.

Lemma update_and_getOrbitCtms_need_a_root_witness :
  m_root (@new_PlanetarySystem R) = None /\
  update 1 (@new_PlanetarySystem R) = Undefined /\
  getOrbitCtms (fun _ => mat4_1) (fun _ => mat4_1) (@new_PlanetarySystem R) = Undefined.
Proof.
  split; [reflexivity|].
  exact (update_and_getOrbitCtms_need_a_root (fun _ => mat4_1) (fun _ => mat4_1)
           new_PlanetarySystem 1 (or_introl eq_refl)).
Defined.

Lemma scaleDiameter_order_witness :
  0 < 100 /\ 0 < 12742 /\
  @scaleDiameter R _ 100 < @scaleDiameter R _ 12742 /\
  @scaleDiameter R _ 100 < 0.
Proof.
  assert (H1 : 0 < 100) by lra. assert (H2 : 0 < 12742) by lra.
  split; [exact H1|]. split; [exact H2|].
  destruct (scaleDiameter_order 100 12742 H1 H2) as (Hord & Hneg & _).
  split; [apply Hord; lra | apply Hneg; lra].
Defined.

Lemma scaleOrbitalRadius_order_witness :
  0 < 10 /\ 0 < 100 /\
  @scaleOrbitalRadius R _ 10 < @scaleOrbitalRadius R _ 100 /\
  0 < @scaleOrbitalRadius R _ 100.
Proof.
  assert (H1 : 0 < 10) by lra. assert (H2 : 0 < 100) by lra.
  split; [exact H1|]. split; [exact H2|].
  destruct (scaleOrbitalRadius_order 10 100 H1 H2) as (Hord & _ & _).
  destruct (scaleOrbitalRadius_order 100 10 H2 H1) as (_ & Hpos & _ & Hhi).
  split; [apply Hord; lra | apply Hpos; lra].
Defined.

Lemma orbital_rate_decreases_with_period_witness :
  0 < 88 /\ 88 < 365.2 /\
  @scaleVelocity R _ (1 / 365.2) < @scaleVelocity R _ (1 / 88).
Proof.
  assert (H1 : 0 < 88) by lra. assert (H2 : 88 < 365.2) by lra.
  split; [exact H1|]. split; [exact H2|].
  exact (proj1 (proj2 (orbital_rate_decreases_with_period 88 365.2 H1 H2))).
Defined.

End Witnesses.
